(** * tour.js: a shallow embedding of [Spotlight] and [Tour]

    The development follows the two classes of the library,
    [src/classes/Spotlight.js] and [src/classes/Tour.js].

    - Pixel quantities are JavaScript numbers; they are modelled as
      rationals ([Q]), on which the additions, subtractions and halvings
      of the code are exact.
    - Methods mutate [this] and the page; they are modelled in a state
      monad with exceptions in which the mutations made before a [throw]
      are kept, as in JavaScript.
    - The browser (element lookup, bounding rectangles, window size, the
      style sheet) is a collaborator of the code; it is a [Layout] record
      that every operation takes as a parameter. *)

From Stdlib Require Import ZArith QArith Qabs Lqa String Ascii List Bool Lia.
From stdpp Require Import base option list gmap strings pretty.

Set Default Proof Using "Type".

(** ** Outcomes of a method call *)

Inductive Exn : Type :=
| TypeError.

Inductive Result (A : Type) : Type :=
| Ok (a : A)
| Throw (e : Exn).
Arguments Ok {A} a.
Arguments Throw {A} e.

(** A method over a mutable state [S]: it returns normally or throws, and
    in both cases leaves a state behind. *)
Definition M (S A : Type) : Type := S -> Result A * S.

Definition ret {S A} (a : A) : M S A := fun s => (Ok a, s).

Definition throw {S A} (e : Exn) : M S A := fun s => (Throw e, s).

Definition bind {S A B} (m : M S A) (k : A -> M S B) : M S B :=
  fun s => match m s with
           | (Ok a, s') => k a s'
           | (Throw e, s') => (Throw e, s')
           end.

Definition gets {S A} (f : S -> A) : M S A := fun s => (Ok (f s), s).

Definition modify {S} (f : S -> S) : M S unit := fun s => (Ok tt, f s).

Definition when {S} (b : bool) (m : M S unit) : M S unit :=
  if b then m else ret tt.

(** The state a call leaves behind, and how it ended. *)
Definition after {S A} (m : M S A) (s : S) : S := (m s).2.
Definition outcome {S A} (m : M S A) (s : S) : Result A := (m s).1.

Declare Scope js_scope.
Delimit Scope js_scope with js.
Notation "'let!' x ':=' m 'in' k" := (bind m (fun x => k))
  (at level 10, x name, m at level 100, k at level 200) : js_scope.
Notation "m '>>' k" := (bind m (fun _ => k))
  (at level 100, k at level 200, right associativity) : js_scope.

(** ** Numbers and rectangles *)

Local Open Scope Q_scope.

(** [a < b] and [a <= b] on pixel values, as booleans. *)
Definition Qltb (a b : Q) : bool := negb (Qle_bool b a).
Definition Qleb (a b : Q) : bool := Qle_bool a b.

(** A [DOMRect] as [getBoundingClientRect] returns it: width and height
    are not negative there, so [left]/[top] are its origin and
    [right]/[bottom] are derived. *)
Record Rect : Type := mkRect {
  r_left : Q;
  r_top : Q;
  r_width : Q;
  r_height : Q
}.

Definition r_right (r : Rect) : Q := r_left r + r_width r.
Definition r_bottom (r : Rect) : Q := r_top r + r_height r.

Definition zeroRect : Rect := mkRect 0 0 0 0.

(** The point [(x, y)] lies in the box [r] (edges: left and top included,
    right and bottom excluded). *)
Definition inRect (r : Rect) (x y : Q) : Prop :=
  r_left r <= x /\ x < r_right r /\ r_top r <= y /\ y < r_bottom r.

(** [r] grown by [p] on each of its four sides. *)
Definition expand (r : Rect) (p : Q) : Rect :=
  mkRect (r_left r - p) (r_top r - p) (r_width r + p * 2) (r_height r + p * 2).

(** ** Spotlight.js *)

(** Modelled from the spec: the style sheet [tour.css], which gives the
    overlay panels (class [tour-overlay]) their size and resting place,
    is not among the sources.  Following the data model ("Rectangle:
    viewport-relative geometry snapshot of an element or panel"), a panel
    is a box in viewport coordinates whose left, top, width and height
    come from the style sheet unless the inline style set by the code
    overrides them. *)
Record OverlayCss : Type := mkCss {
  css_left : Q;
  css_top : Q;
  css_width : Q;
  css_height : Q
}.

(** One overlay [div]: the inline style properties the code writes
    ([style.top], [style.left], [style.height], each unset at first),
    what the style sheet gives it, and whether it is in the document. *)
Record Panel : Type := mkPanel {
  style_top : option Q;
  style_left : option Q;
  style_height : option Q;
  panel_css : OverlayCss;
  panel_attached : bool
}.

Definition newPanel (css : OverlayCss) : Panel :=
  mkPanel None None None css true.

(** [panel.getBoundingClientRect()]; all zeros for a removed node. *)
Definition panelRect (p : Panel) : Rect :=
  if panel_attached p then
    mkRect (default (css_left (panel_css p)) (style_left p))
           (default (css_top (panel_css p)) (style_top p))
           (css_width (panel_css p))
           (default (css_height (panel_css p)) (style_height p))
  else zeroRect.

(** The region of the viewport a panel masks. *)
Definition covers (p : Panel) (x y : Q) : Prop :=
  panel_attached p = true /\ inRect (panelRect p) x y.

Definition set_top (v : Q) (p : Panel) : Panel :=
  mkPanel (Some v) (style_left p) (style_height p) (panel_css p) (panel_attached p).
Definition set_left (v : Q) (p : Panel) : Panel :=
  mkPanel (style_top p) (Some v) (style_height p) (panel_css p) (panel_attached p).
Definition set_height (v : Q) (p : Panel) : Panel :=
  mkPanel (style_top p) (style_left p) (Some v) (panel_css p) (panel_attached p).
Definition remove (p : Panel) : Panel :=
  mkPanel (style_top p) (style_left p) (style_height p) (panel_css p) false.

Module Spotlight.

Local Open Scope js_scope.
Local Open Scope Q_scope.

Record t : Type := mk {
  padding : Q;
  spotlight : list Panel
}.

Definition push (p : Panel) (sp : t) : t :=
  mk (padding sp) (spotlight sp ++ [p]).

(** [create()]: the loop [for (i = 0; i < 4; i++)], [n] iterations left. *)
Fixpoint create_loop (css : OverlayCss) (n : nat) (sp : t) : t :=
  match n with
  | O => sp
  | S n' => create_loop css n' (push (newPanel css) sp)
  end.

Definition create (css : OverlayCss) (sp : t) : t := create_loop css 4 sp.

(** [constructor(padding = 0)]. *)
Definition constructor (css : OverlayCss) (padding : option Q) : t :=
  create css (mk (default 0 padding) []).

(** [this.spotlight[i]], then a property read on it: a [TypeError] when
    the array has no such entry. *)
Definition panel (i : nat) : M t Panel :=
  fun sp => match spotlight sp !! i with
            | Some p => (Ok p, sp)
            | None => (Throw TypeError, sp)
            end.

(** [this.spotlight[i].style.<prop> = v]. *)
Definition assign (i : nat) (f : Panel -> Panel) : M t unit :=
  let! p := panel i in
  modify (fun sp => mk (padding sp) (<[i := f p]> (spotlight sp))).

(** [move(element)], on the rectangle [element.getBoundingClientRect()]. *)
Definition move (rect : Rect) : M t unit :=
  let! pad := gets padding in
  let! p0 := panel 0 in
  assign 0 (set_top (r_top rect - pad - r_height (panelRect p0))) >>
  assign 1 (set_left (r_right rect + pad)) >>
  assign 1 (set_top (r_top rect - pad)) >>
  assign 2 (set_top (r_bottom rect + pad)) >>
  let! p3 := panel 3 in
  assign 3 (set_left (r_left rect - pad - r_width (panelRect p3))) >>
  assign 3 (set_top (r_top rect - pad)) >>
  assign 3 (set_height (r_height rect + pad * 2)) >>
  assign 1 (set_height (r_height rect + pad * 2)).

(** [blackout()]. *)
Definition blackout : M t unit :=
  assign 0 (set_top 0) >>
  let! p1 := panel 1 in
  assign 1 (set_left (r_width (panelRect p1))) >>
  let! p2 := panel 2 in
  assign 2 (set_top (r_height (panelRect p2))) >>
  let! p3 := panel 3 in
  assign 3 (set_left (- r_width (panelRect p3))).

(** [kill()]: every panel is removed from the document; the array is
    kept. *)
Definition kill (sp : t) : t :=
  if negb (length (spotlight sp) =? 0)%nat
  then mk (padding sp) (map remove (spotlight sp))
  else sp.

End Spotlight.

(** ** Strings: [String.prototype.replace] with a string pattern *)

Section Strings.
Local Open Scope string_scope.

Fixpoint drop_chars (n : nat) (s : string) : string :=
  match n, s with
  | O, _ => s
  | S n', String _ s' => drop_chars n' s'
  | S _, EmptyString => EmptyString
  end.

(** The text before and after the first occurrence of [pat] in [s]
    ([s.indexOf(pat)]), if there is one. *)
Fixpoint split_first (pat s : string) : option (string * string) :=
  if String.prefix pat s then Some (EmptyString, drop_chars (String.length pat) s)
  else match s with
       | EmptyString => None
       | String c s' =>
           match split_first pat s' with
           | Some (before, after) => Some (String c before, after)
           | None => None
           end
       end.

(** [GetSubstitution] for a match without capture groups: in the
    replacement text, [$$] stands for a dollar sign, [$&] for the match,
    [$`] for the text before it and [$'] for the text after it; any
    other [$] is kept. *)
Fixpoint getSubstitution (matched before after template : string) : string :=
  match template with
  | EmptyString => EmptyString
  | String c tl =>
      if Ascii.eqb c "$" then
        match tl with
        | String d rest =>
            if Ascii.eqb d "$" then
              String "$" (getSubstitution matched before after rest)
            else if Ascii.eqb d "&" then
              matched +:+ getSubstitution matched before after rest
            else if Ascii.eqb d "`" then
              before +:+ getSubstitution matched before after rest
            else if Ascii.eqb d "'" then
              after +:+ getSubstitution matched before after rest
            else String "$" (getSubstitution matched before after tl)
        | EmptyString => String "$" EmptyString
        end
      else String c (getSubstitution matched before after tl)
  end.

(** [s.replace(pat, replacement)] where [pat] is a string: only the
    first occurrence of [pat] is replaced. *)
Definition replace (pat replacement s : string) : string :=
  match split_first pat s with
  | Some (before, after) =>
      before +:+ getSubstitution pat before after replacement +:+ after
  | None => s
  end.

End Strings.

(** ** Step indices *)

(** The step index is a JavaScript number: an integer, or [NaN] when
    [parseInt] found no digits. *)
Inductive num : Type :=
| Int (z : Z)
| NaN.

Definition incr (n : num) : num :=
  match n with Int z => Int (z + 1) | NaN => NaN end.

Definition decr (n : num) : num :=
  match n with Int z => Int (z - 1) | NaN => NaN end.

(** [n < len] for an array length. *)
Definition num_lt_length (n : num) (len : nat) : bool :=
  match n with Int z => (z <? Z.of_nat len)%Z | NaN => false end.

(** [n == z]. *)
Definition num_eqb (n : num) (z : Z) : bool :=
  match n with Int z' => (z' =? z)%Z | NaN => false end.

(** [arr[n]]: [None] stands for [undefined]. *)
Definition index {A} (arr : list A) (n : num) : option A :=
  match n with
  | Int z => if (0 <=? z)%Z then arr !! Z.to_nat z else None
  | NaN => None
  end.

(** [n.toString()]. *)
Definition toString (n : num) : string :=
  match n with Int z => pretty z | NaN => "NaN"%string end.

Definition hex_digit (c : ascii) : option Z :=
  match c with
  | "a" | "A" => Some 10 | "b" | "B" => Some 11 | "c" | "C" => Some 12
  | "d" | "D" => Some 13 | "e" | "E" => Some 14 | "f" | "F" => Some 15
  | _ => Z.of_nat <$> Ascii.is_nat c
  end%char%Z.

Definition dec_digit (c : ascii) : option Z := Z.of_nat <$> Ascii.is_nat c.

Fixpoint skip_space (s : string) : string :=
  match s with
  | String c s' => if Ascii.is_space c then skip_space s' else s
  | EmptyString => EmptyString
  end.

(** The value of the longest prefix of [s] made of digits; [acc] is the
    value read so far, [None] before the first digit. *)
Fixpoint digits (radix : Z) (digit : ascii -> option Z) (s : string)
    (acc : option Z) : option Z :=
  match s with
  | String c s' =>
      match digit c with
      | Some d => digits radix digit s' (Some (default 0 acc * radix + d)%Z)
      | None => acc
      end
  | EmptyString => acc
  end.

(** [parseInt(s)], without a radix argument. *)
Definition parseInt (s : string) : num :=
  let s := skip_space s in
  let '(neg, s) :=
    match s with
    | String c s' =>
        if Ascii.eqb c "-" then (true, s')
        else if Ascii.eqb c "+" then (false, s')
        else (false, s)
    | EmptyString => (false, s)
    end in
  let r :=
    match s with
    | String c0 (String c1 s') =>
        if Ascii.eqb c0 "0" && (Ascii.eqb c1 "x" || Ascii.eqb c1 "X")
        then digits 16 hex_digit s' None
        else digits 10 dec_digit s None
    | _ => digits 10 dec_digit s None
    end in
  match r with
  | Some z => Int (if neg then - z else z)
  | None => NaN
  end.

(** ** Tour.js: data *)

(** One step of the tour: [{id, text, img}]; [id] and [img] may be
    missing. *)
Record Step : Type := mkStep {
  step_id : option string;
  step_text : string;
  step_img : option string
}.

(** Truthiness of a value that is a string or [undefined]. *)
Definition truthy (o : option string) : bool :=
  match o with
  | Some s => negb (String.eqb s EmptyString)
  | None => false
  end.

Module Options.
Record t : Type := mk {
  disableScroll : bool;
  spotlight : bool;
  language : string;
  scrollMargin : Q
}.
End Options.

(** The argument of [setOptions]: an object in which each of the four
    properties may be missing (or [undefined]). *)
Record OptionsArg : Type := mkOptionsArg {
  arg_disableScroll : option bool;
  arg_spotlight : option bool;
  arg_language : option string;
  arg_scrollMargin : option Q
}.

Definition allOptions (o : Options.t) : OptionsArg :=
  mkOptionsArg (Some (Options.disableScroll o)) (Some (Options.spotlight o))
               (Some (Options.language o)) (Some (Options.scrollMargin o)).

(** What [updatePopup] puts in the popup; the markup around these parts
    is fixed. *)
Record PopupContent : Type := mkContent {
  pc_img : option string;
  pc_text : string;
  pc_previous : option string;
  pc_next : string
}.

(** The popup [div]: its content (none when just created), the inline
    [style.left] and [style.top], and whether it is in the document. *)
Record Popup : Type := mkPopup {
  innerHTML : option PopupContent;
  popup_left : option Q;
  popup_top : option Q;
  popup_attached : bool
}.

Record Pos : Type := mkPos {
  pos_x : Q;
  pos_y : Q
}.

(** A call [element.scrollIntoView(alignToTop)], with the element's
    [style.scrollMarginTop] at that time. *)
Inductive ScrollCall : Type :=
| ScrollIntoView (element : string) (alignToTop : bool) (scrollMarginTop : Q).

(** The browser, as the code consults it.  Elements are named by their
    id; rectangles depend on the scroll calls made so far. *)
Record Layout : Type := mkLayout {
  getElementById : string -> bool;
  offsetTop : string -> Q;
  body_offsetHeight : Q;
  elementRect : list ScrollCall -> string -> Rect;
  bodyRect : list ScrollCall -> Rect;
  popupRect : Popup -> Rect;
  innerWidth : Q;
  innerHeight : Q;
  scrollOffset : list ScrollCall -> Q * Q;
  overlayCss : OverlayCss
}.

Inductive LogEntry : Type :=
| Warn (msg : string).

(** [window.onresize]: nothing, the debounced recalculation installed by
    [setWindowResizeEvent(true)], or the empty function. *)
Inductive ResizeHandler : Type :=
| NoResizeHandler
| Recalculate
| IgnoreResize.

(** [window.onscroll]: nothing, the function that scrolls back to a fixed
    offset, or the empty function. *)
Inductive ScrollHandler : Type :=
| NoScrollHandler
| ScrollBackTo (x y : Q)
| IgnoreScroll.

(** The object [save()] serialises.  [JSON.stringify] followed by
    [JSON.parse] gives back an equal object, so the stored text is
    represented by the object itself. *)
Record SavedTour : Type := mkSaved {
  sv_currentState : string;
  sv_steps : list Step;
  sv_step : string;
  sv_options : Options.t;
  sv_textVariables : list (string * string)
}.

(** What the code touches outside the tour object. *)
Record Page : Type := mkPage {
  console : list LogEntry;
  onresize : ResizeHandler;
  onscroll : ScrollHandler;
  scrolls : list ScrollCall;
  sessionStorage : gmap string SavedTour
}.

(** ** Tour.js: popup placement *)

Definition offset : Q := 10.

(** The body of [getPopupPos] after the rectangles are read: the position
    and whether [scrollIntoView(true)] was called again. *)
Definition popupPos (docRect rect popupRect : Rect) (innerHeight : Q) : Pos * bool :=
  let below :=
    mkPos (r_left rect + (r_width rect / 2) - (r_width popupRect / 2))
          (r_bottom rect + offset) in
  let '(pos, rescroll) :=
    if Qleb (r_width docRect - r_width rect) (r_width docRect / 2) then
      if Qltb (r_bottom rect) (innerHeight / 2) then
        (below, false)
      else
        (mkPos (r_left rect + (r_width rect / 2) - (r_width popupRect / 2))
               (r_top rect - offset - r_height popupRect), false)
    else
      if Qltb (r_right rect) (r_width docRect / 2) then
        let pos := mkPos (r_right rect + offset)
                         (r_top rect + (r_height rect / 2) - (r_height popupRect / 2)) in
        if Qltb (r_width docRect - r_width popupRect) (r_right rect)
        then (below, true) else (pos, false)
      else
        let pos :=
          mkPos (if Qltb (r_left rect - offset - r_width popupRect) 0 then 0
                 else r_left rect - offset - r_width popupRect)
                (r_top rect + (r_height rect / 2) - (r_height popupRect / 2)) in
        if Qltb (r_left rect) (r_width popupRect)
        then (below, true) else (pos, false) in
  (mkPos (Qabs (pos_x pos)) (Qabs (pos_y pos)), rescroll).

(** The body of [getCenterPos]. *)
Definition centerPos (innerWidth innerHeight : Q) (popupRect : Rect) : Pos :=
  mkPos ((innerWidth / 2) - (r_width popupRect / 2))
        ((innerHeight / 2) - (r_height popupRect / 2)).

(** ** Tour.js: the class *)

Module Tour.

Local Open Scope js_scope.

(** The fields of a [Tour].  [currentState] is 0 (configuration), 1
    (started) or 2 (finished); [currentElement] is the target element,
    named by its id; [textVariables] lists the properties of the object
    in the order the [for ... in] loop visits them; [observed] are the
    elements [resizeObserver] observes.  [None] stands for [null]. *)
Record t : Type := mk {
  varName : string;
  steps : list Step;
  step : num;
  currentState : Z;
  currentElement : option string;
  popupElement : option Popup;
  spotlight : option Spotlight.t;
  textVariables : list (string * string);
  options : Options.t;
  observed : list string
}.

(** The tour object and the page it runs in. *)
Record World : Type := mkWorld {
  this : t;
  page : Page
}.

(** *** Field updates *)

Definition set_step (v : num) (o : t) : t :=
  mk (varName o) (steps o) v (currentState o) (currentElement o)
     (popupElement o) (spotlight o) (textVariables o) (options o) (observed o).
Definition set_currentState (v : Z) (o : t) : t :=
  mk (varName o) (steps o) (step o) v (currentElement o)
     (popupElement o) (spotlight o) (textVariables o) (options o) (observed o).
Definition set_currentElement (v : option string) (o : t) : t :=
  mk (varName o) (steps o) (step o) (currentState o) v
     (popupElement o) (spotlight o) (textVariables o) (options o) (observed o).
Definition set_popupElement (v : option Popup) (o : t) : t :=
  mk (varName o) (steps o) (step o) (currentState o) (currentElement o)
     v (spotlight o) (textVariables o) (options o) (observed o).
Definition set_spotlight (v : option Spotlight.t) (o : t) : t :=
  mk (varName o) (steps o) (step o) (currentState o) (currentElement o)
     (popupElement o) v (textVariables o) (options o) (observed o).
Definition set_textVariables (v : list (string * string)) (o : t) : t :=
  mk (varName o) (steps o) (step o) (currentState o) (currentElement o)
     (popupElement o) (spotlight o) v (options o) (observed o).
Definition set_options (v : Options.t) (o : t) : t :=
  mk (varName o) (steps o) (step o) (currentState o) (currentElement o)
     (popupElement o) (spotlight o) (textVariables o) v (observed o).
Definition set_observed (v : list string) (o : t) : t :=
  mk (varName o) (steps o) (step o) (currentState o) (currentElement o)
     (popupElement o) (spotlight o) (textVariables o) (options o) v.

Definition on_this (f : t -> t) (w : World) : World :=
  mkWorld (f (this w)) (page w).

Definition set_console (v : list LogEntry) (p : Page) : Page :=
  mkPage v (onresize p) (onscroll p) (scrolls p) (sessionStorage p).
Definition set_onresize (v : ResizeHandler) (p : Page) : Page :=
  mkPage (console p) v (onscroll p) (scrolls p) (sessionStorage p).
Definition set_onscroll (v : ScrollHandler) (p : Page) : Page :=
  mkPage (console p) (onresize p) v (scrolls p) (sessionStorage p).
Definition set_scrolls (v : list ScrollCall) (p : Page) : Page :=
  mkPage (console p) (onresize p) (onscroll p) v (sessionStorage p).
Definition set_sessionStorage (v : gmap string SavedTour) (p : Page) : Page :=
  mkPage (console p) (onresize p) (onscroll p) (scrolls p) v.

Definition on_page (f : Page -> Page) (w : World) : World :=
  mkWorld (this w) (f (page w)).

(** *** Methods that only touch the tour object *)

(** [setOptions({disableScroll = true, spotlight = true, language = "en",
    scrollMargin = 50} = {})]; [None] is a call without argument. *)
Definition setOptions (arg : option OptionsArg) (o : t) : t :=
  let a := default (mkOptionsArg None None None None) arg in
  set_options
    (Options.mk (default true (arg_disableScroll a))
               (default true (arg_spotlight a))
               (default "en"%string (arg_language a))
               (default 50%Q (arg_scrollMargin a))) o.

Definition setTextVariables (variables : list (string * string)) (o : t) : t :=
  set_textVariables variables o.

(** [constructor(varName, steps, step = 0)]. *)
Definition constructor (varName : string) (steps : list Step) (step : option num) : t :=
  setOptions None
    (mk varName steps (default (Int 0) step) 0 None None None []
        (Options.mk true true "en"%string 50%Q) []).

(** [isLastStep()]. *)
Definition isLastStep (o : t) : bool :=
  num_eqb (step o) (Z.of_nat (length (steps o)) - 1).

(** The text of a step after the loop over [textVariables]. *)
Definition formatText (variables : list (string * string)) (text : string) : string :=
  fold_left (fun text kv => replace ("PLACEHOLDER-" +:+ kv.1) kv.2 text)
            variables text.

(** The labels of the previous, next and end buttons. *)
Definition buttonLabels (language : string) : string * string * string :=
  if negb (String.eqb language EmptyString)
  then if String.eqb language "fr"
       then ("Retour", "Suivant", "Terminer le tour")%string
       else ("Previous", "Next", "End tour")%string
  else ("Previous", "Next", "End tour")%string.

(** The content [updatePopup] builds for [step]. *)
Definition popupHtml (o : t) (step : Step) : PopupContent :=
  let text := formatText (textVariables o) (step_text step) in
  let '(prevText, nextText, endText) := buttonLabels (Options.language (options o)) in
  mkContent (if truthy (step_img step) then step_img step else None)
            text
            (if negb (num_eqb (Tour.step o) 0) then Some prevText else None)
            (if isLastStep o then endText else nextText).

(** *** Persistence *)

(** [save()]; [this.styles] is never set, and [JSON.stringify] leaves
    out a property that is [undefined]. *)
Definition savedObject (o : t) : SavedTour :=
  mkSaved (pretty (currentState o)) (steps o) (toString (step o))
          (options o) (textVariables o).

Definition save : M World unit :=
  let! o := gets this in
  let tour := savedObject o in
  modify (on_page (fun p =>
    set_sessionStorage (<["Tour.js"%string := tour]> (sessionStorage p)) p)).

(** [Tour.getSavedTour(varName)]: [getItem] gives [null] for a missing
    key, [JSON.parse(null)] is [null], and reading [tour.steps] then
    throws. *)
Definition getSavedTour (varName : string) (p : Page) : Result t :=
  match sessionStorage p !! "tour"%string with
  | None => Throw TypeError
  | Some tour =>
      let newTour := constructor varName (sv_steps tour) (Some (parseInt (sv_step tour))) in
      let newTour := set_spotlight None newTour in
      let newTour := setTextVariables (sv_textVariables tour) newTour in
      let newTour := setOptions (Some (allOptions (sv_options tour))) newTour in
      Ok newTour
  end.

Section Methods.
Variable L : Layout.

Definition warn (msg : string) : M World unit :=
  modify (on_page (fun p => set_console (console p ++ [Warn msg]) p)).

(** [element.scrollIntoView(alignToTop)]. *)
Definition scrollIntoView (element : string) (alignToTop : bool) : M World unit :=
  let! margin := gets (fun w => Options.scrollMargin (options (this w))) in
  modify (on_page (fun p =>
    set_scrolls (scrolls p ++ [ScrollIntoView element alignToTop margin]) p)).

(** [this.steps[this.step]], then a property read on it. *)
Definition currentStep : M World Step :=
  fun w => match index (steps (this w)) (step (this w)) with
           | Some s => (Ok s, w)
           | None => (Throw TypeError, w)
           end.

(** [toggleScroll(canScroll)]. *)
Definition toggleScroll (canScroll : bool) : M World unit :=
  let! off := gets (fun w => scrollOffset L (scrolls (page w))) in
  if canScroll
  then modify (on_page (set_onscroll IgnoreScroll))
  else modify (on_page (set_onscroll (ScrollBackTo off.1 off.2))).

(** [setWindowResizeEvent(shouldResize)]. *)
Definition setWindowResizeEvent (shouldResize : bool) : M World unit :=
  if shouldResize
  then modify (on_page (set_onresize Recalculate))
  else modify (on_page (set_onresize IgnoreResize)).

(** [toggleResizeObserver(shouldResize)]: [observe] and [unobserve]
    throw on [null]. *)
Definition toggleResizeObserver (shouldResize : bool) : M World unit :=
  let! el := gets (fun w => currentElement (this w)) in
  match el with
  | None => throw TypeError
  | Some e =>
      if shouldResize
      then modify (on_this (fun o =>
             set_observed (if bool_decide (e ∈ observed o) then observed o
                           else observed o ++ [e]) o))
      else modify (on_this (fun o =>
             set_observed (filter (fun x => x ≠ e) (observed o)) o))
  end.

(** [createPopup()]. *)
Definition createPopup : M World unit :=
  modify (on_this (set_popupElement (Some (mkPopup None None None true)))).

(** [updatePopup()]. *)
Definition updatePopup : M World unit :=
  let! popup := gets (fun w => popupElement (this w)) in
  let! step := currentStep in
  let! o := gets this in
  let html := popupHtml o step in
  match popup with
  | None => throw TypeError
  | Some p =>
      modify (on_this (set_popupElement
        (Some (mkPopup (Some html) (popup_left p) (popup_top p) (popup_attached p)))))
  end.

(** [movePopup(coordinates)]. *)
Definition movePopup (coordinates : Pos) : M World unit :=
  let! popup := gets (fun w => popupElement (this w)) in
  match popup with
  | None => throw TypeError
  | Some p =>
      modify (on_this (set_popupElement
        (Some (mkPopup (innerHTML p) (Some (pos_x coordinates))
                       (Some (pos_y coordinates)) (popup_attached p)))))
  end.

(** [getTopOrBottom(element)]. *)
Definition getTopOrBottom (element : string) : bool :=
  if Qltb (offsetTop L element) (body_offsetHeight L / 2) then true else false.

(** [getPopupPos()].  The assignment to [style.scrollMarginTop] shows in
    the margin the scroll calls are recorded with. *)
Definition getPopupPos : M World Pos :=
  let! el := gets (fun w => currentElement (this w)) in
  match el with
  | None => throw TypeError
  | Some e =>
      let scrollTop := getTopOrBottom e in
      scrollIntoView e scrollTop >>
      let! hist := gets (fun w => scrolls (page w)) in
      let docRect := bodyRect L hist in
      let rect := elementRect L hist e in
      let! popup := gets (fun w => popupElement (this w)) in
      match popup with
      | None => throw TypeError
      | Some p =>
          let r := popupPos docRect rect (popupRect L p) (innerHeight L) in
          when r.2 (scrollIntoView e true) >>
          ret r.1
      end
  end.

(** [getCenterPos()]. *)
Definition getCenterPos : M World Pos :=
  let! popup := gets (fun w => popupElement (this w)) in
  match popup with
  | None => throw TypeError
  | Some p => ret (centerPos (innerWidth L) (innerHeight L) (popupRect L p))
  end.

(** A call of a method of [this.spotlight]. *)
Definition withSpotlight (m : M Spotlight.t unit) : M World unit :=
  fun w => match spotlight (this w) with
           | None => (Throw TypeError, w)
           | Some sp =>
               let '(r, sp') := m sp in
               (r, on_this (set_spotlight (Some sp')) w)
           end.

(** [makeStep()].  Its last statement, [this.currentElement.scrollMarginTop
    = "0px"], runs only after the element was found and sets a property
    that nothing reads; it leaves the modelled state as it is. *)
Definition makeStep : M World unit :=
  let! step := currentStep in
  let elementId := step_id step in
  updatePopup >>
  let! coordinates :=
    if truthy elementId then
      modify (on_this (fun o =>
        set_currentElement
          (if getElementById L (default EmptyString elementId) then elementId else None) o)) >>
      toggleResizeObserver true >>
      getPopupPos
    else
      modify (on_this (set_currentElement None)) >>
      getCenterPos in
  movePopup coordinates >>
  let! o := gets this in
  when (Options.spotlight (options o))
    (match currentElement o with
     | Some e =>
         let! hist := gets (fun w => scrolls (page w)) in
         withSpotlight (Spotlight.move (elementRect L hist e))
     | None => withSpotlight Spotlight.blackout
     end) >>
  when (Options.disableScroll (options o)) (toggleScroll false).

(** [endTour()]. *)
Definition endTour : M World unit :=
  modify (on_this (set_currentState 2)) >>
  let! popup := gets (fun w => popupElement (this w)) in
  match popup with
  | None => throw TypeError
  | Some p =>
      modify (on_this (set_popupElement
        (Some (mkPopup (innerHTML p) (popup_left p) (popup_top p) false)))) >>
      setWindowResizeEvent false >>
      let! o := gets this in
      when (Options.spotlight (options o))
        (withSpotlight (fun sp => (Ok tt, Spotlight.kill sp))) >>
      toggleScroll true
  end.

(** [start()]. *)
Definition start : M World unit :=
  let! state := gets (fun w => currentState (this w)) in
  if negb (state =? 1)%Z then
    modify (on_this (set_currentState 1)) >>
    setWindowResizeEvent true >>
    createPopup >>
    let! o := gets this in
    when (Options.spotlight (options o))
      (modify (on_this (set_spotlight
         (Some (Spotlight.constructor (overlayCss L) (Some 10%Q)))))) >>
    makeStep
  else
    warn "The Tour has already started.".

(** [previous()]. *)
Definition previous : M World unit :=
  modify (on_this (fun o => set_step (decr (step o)) o)) >>
  let! el := gets (fun w => currentElement (this w)) in
  when (bool_decide (is_Some el)) (toggleResizeObserver false) >>
  makeStep.

(** [next()]. *)
Definition next : M World unit :=
  modify (on_this (fun o => set_step (incr (step o)) o)) >>
  let! el := gets (fun w => currentElement (this w)) in
  when (bool_decide (is_Some el)) (toggleResizeObserver false) >>
  let! o := gets this in
  if num_lt_length (step o) (length (steps o))
  then makeStep
  else endTour.

(** The world after [n] calls of [next()], one after the other (each
    a click on the popup's button: a call that throws does not keep
    the later ones from running). *)
Fixpoint next_times (n : nat) (w : World) : World :=
  match n with
  | O => w
  | S n' => after next (next_times n' w)
  end.

End Methods.

End Tour.

(** ** A page and a tour to run the model on *)

Module Example.

Local Open Scope Q_scope.

(** Overlays as large as the viewport, resting at its origin. *)
Definition css : OverlayCss := mkCss 0 0 1000 800.

(** A 1000 x 800 viewport on a 1000 x 2000 document with two elements,
    [a] and [b], of 200 x 50 at (100, 100) once scrolled into view, and
    a popup of 300 x 120. *)
Definition layout : Layout :=
  mkLayout (fun s => String.eqb s "a" || String.eqb s "b")
           (fun _ => 100) 2000
           (fun _ _ => mkRect 100 100 200 50)
           (fun _ => mkRect 0 0 1000 2000)
           (fun _ => mkRect 0 0 300 120)
           1000 800 (fun _ => (0, 0)) css.

Definition page0 : Page := mkPage [] NoResizeHandler NoScrollHandler [] ∅.

Definition steps : list Step :=
  [mkStep (Some "a"%string) "Hi PLACEHOLDER-n" None;
   mkStep (Some "b"%string) "Bye" None].

(** [new Tour("tour", steps)] followed by [setTextVariables({n: "Sam"})]. *)
Definition world0 : Tour.World :=
  Tour.mkWorld
    (Tour.setTextVariables [("n", "Sam")]%string (Tour.constructor "tour" steps None))
    page0.

(** The same tour once started, and once gone through. *)
Definition started : Tour.World := after (Tour.start layout) world0.
Definition finished : Tour.World := Tour.next_times layout 2 started.

(** A tour of one step without target element, started. *)
Definition centred0 : Tour.World :=
  Tour.mkWorld (Tour.constructor "tour" [mkStep None "Welcome" None] None) page0.
Definition centred : Tour.World := after (Tour.start layout) centred0.

(** A tour whose only step names the same placeholder twice, with
    [setTextVariables({n: "Sam"})]. *)
Definition twice0 : Tour.World :=
  Tour.mkWorld
    (Tour.setTextVariables [("n", "Sam")]%string
       (Tour.constructor "tour"
          [mkStep None "PLACEHOLDER-n and PLACEHOLDER-n" None] None))
    page0.

End Example.

(** ** Vocabulary of the properties *)

(** A call [m] keeps the relation [R] between the state it starts in and
    the state it leaves, whether it returns or throws. *)
Definition preserves {S A} (R : S -> S -> Prop) (m : M S A) : Prop :=
  forall s, R s (after m s).

(** Two spotlights with the same padding and as many panels. *)
Definition same_panels (sp sp' : Spotlight.t) : Prop :=
  Spotlight.padding sp' = Spotlight.padding sp /\
  length (Spotlight.spotlight sp') = length (Spotlight.spotlight sp).

(** [w'] has the steps, index, state, options, variables, log, resize
    handler and storage of [w], and still has a popup, and a spotlight
    with as many panels, if [w] had them. *)
Definition stable (w w' : Tour.World) : Prop :=
  Tour.varName (Tour.this w') = Tour.varName (Tour.this w) /\
  Tour.steps (Tour.this w') = Tour.steps (Tour.this w) /\
  Tour.step (Tour.this w') = Tour.step (Tour.this w) /\
  Tour.currentState (Tour.this w') = Tour.currentState (Tour.this w) /\
  Tour.options (Tour.this w') = Tour.options (Tour.this w) /\
  Tour.textVariables (Tour.this w') = Tour.textVariables (Tour.this w) /\
  (is_Some (Tour.popupElement (Tour.this w)) ->
   is_Some (Tour.popupElement (Tour.this w'))) /\
  (forall sp, Tour.spotlight (Tour.this w) = Some sp ->
     exists sp', Tour.spotlight (Tour.this w') = Some sp' /\ same_panels sp sp') /\
  console (Tour.page w') = console (Tour.page w) /\
  onresize (Tour.page w') = onresize (Tour.page w) /\
  sessionStorage (Tour.page w') = sessionStorage (Tour.page w).

(** The world in which [start()] renders the current step, when the tour
    was not started: state Started, resize handler registered, a new
    popup, and a new spotlight if the option asks for one. *)
Definition start_world (L : Layout) (w : Tour.World) : Tour.World :=
  Tour.mkWorld
    (let o := Tour.set_popupElement (Some (mkPopup None None None true))
                (Tour.set_currentState 1 (Tour.this w)) in
     if Options.spotlight (Tour.options o)
     then Tour.set_spotlight
            (Some (Spotlight.constructor (overlayCss L) (Some 10%Q))) o
     else o)
    (Tour.set_onresize Recalculate (Tour.page w)).

(** The world in which [next()] renders or ends: the index is one more,
    and the element of the step before is no longer observed. *)
Definition next_world (w : Tour.World) : Tour.World :=
  let w1 := Tour.on_this (fun o => Tour.set_step (incr (Tour.step o)) o) w in
  match Tour.currentElement (Tour.this w1) with
  | Some e =>
      Tour.on_this (fun o =>
        Tour.set_observed (filter (fun x => x ≠ e) (Tour.observed o)) o) w1
  | None => w1
  end.

(** The target of the step, if it names one, is in the document. *)
Definition resolves (L : Layout) (st : Step) : Prop :=
  forall e, step_id st = Some e -> truthy (Some e) = true -> getElementById L e = true.

(** The tour is under way at step [k] of the steps [ss], with what the
    renders and a later [endTour()] need: a popup, and a spotlight with
    its four panels when the option asks for one. *)
Definition running (ss : list Step) (k : Z) (w : Tour.World) : Prop :=
  Tour.currentState (Tour.this w) = 1%Z /\
  Tour.step (Tour.this w) = Int k /\
  Tour.steps (Tour.this w) = ss /\
  is_Some (Tour.popupElement (Tour.this w)) /\
  (Options.spotlight (Tour.options (Tour.this w)) = true ->
   exists sp, Tour.spotlight (Tour.this w) = Some sp /\
              (4 <= length (Spotlight.spotlight sp))%nat).

(** Every panel of the spotlight is out of the document. *)
Definition all_removed (sp : Spotlight.t) : Prop :=
  Forall (fun q => panel_attached q = false) (Spotlight.spotlight sp).

(** A call keeps removed panels removed. *)
Definition keeps_removed (sp sp' : Spotlight.t) : Prop :=
  all_removed sp -> all_removed sp'.


(** The world in which [previous()] renders: the index is one less, and
    the element of the step before is no longer observed. *)
Definition previous_world (w : Tour.World) : Tour.World :=
  let w1 := Tour.on_this (fun o => Tour.set_step (decr (Tour.step o)) o) w in
  match Tour.currentElement (Tour.this w1) with
  | Some e =>
      Tour.on_this (fun o =>
        Tour.set_observed (filter (fun x => x ≠ e) (Tour.observed o)) o) w1
  | None => w1
  end.


(** The resize observer observes nothing but the current target. *)
Definition observes_target (w : Tour.World) : Prop :=
  forall x, x ∈ Tour.observed (Tour.this w) ->
            Tour.currentElement (Tour.this w) = Some x.

(** [w'] has the current element and the observed elements of [w]. *)
Definition same_target (w w' : Tour.World) : Prop :=
  Tour.currentElement (Tour.this w') = Tour.currentElement (Tour.this w) /\
  Tour.observed (Tour.this w') = Tour.observed (Tour.this w).

(** From a state where [P] holds, the call [m] leaves a state where [Q]
    holds, whether it returns or throws. *)
Definition hoare {S A} (P : S -> Prop) (m : M S A) (Q : S -> Prop) : Prop :=
  forall s, P s -> Q (after m s).

(** * Properties *)

Local Open Scope Q_scope.

(** ** Comparisons *)





(** ** setOptions *)

(** C10: [setOptions] builds all four options from its argument alone: a
    field missing from the argument gets its default ([true], [true],
    ["en"], [50]) whatever the tour held before, a field that is there
    is taken over; so [setOptions({language: "fr"})] on a tour whose
    [disableScroll] was [false] sets it back to [true]. *)
Theorem setOptions_resets_absent_fields (arg : OptionsArg) (o : Tour.t) :
  let o' := Tour.setOptions (Some arg) o in
  (arg_disableScroll arg = None -> Options.disableScroll (Tour.options o') = true) /\
  (arg_spotlight arg = None -> Options.spotlight (Tour.options o') = true) /\
  (arg_language arg = None -> Options.language (Tour.options o') = "en"%string) /\
  (arg_scrollMargin arg = None -> Options.scrollMargin (Tour.options o') = 50) /\
  (forall v, arg_disableScroll arg = Some v -> Options.disableScroll (Tour.options o') = v) /\
  (forall v, arg_spotlight arg = Some v -> Options.spotlight (Tour.options o') = v) /\
  (forall v, arg_language arg = Some v -> Options.language (Tour.options o') = v) /\
  (forall v, arg_scrollMargin arg = Some v -> Options.scrollMargin (Tour.options o') = v) /\
  Tour.set_options (Tour.options o) o' = o.
Proof.
  destruct arg as [d s l m], o; cbn.
  repeat split; intros; subst; reflexivity.
Qed.

Lemma setOptions_resets_absent_fields_witness :
  let o := Tour.setOptions
             (Some (mkOptionsArg (Some false) None None None))
             (Tour.constructor "tour" [] None) in
  let o' := Tour.setOptions (Some (mkOptionsArg None None (Some "fr"%string) None)) o in
  Options.disableScroll (Tour.options o) = false /\
  Options.disableScroll (Tour.options o') = true /\
  Options.language (Tour.options o') = "fr"%string.
Proof.
  intros o o'.
  pose proof (setOptions_resets_absent_fields
                (mkOptionsArg None None (Some "fr"%string) None) o) as H.
  destruct H as (Hd & _ & _ & _ & _ & _ & Hl & _).
  split; [reflexivity|]. split.
  - apply Hd. reflexivity.
  - apply Hl. reflexivity.
Defined.

(** ** Popup placement *)






(** A render of a step without target element: the popup gets the new
    content and the centre coordinates, and the spotlight, if the option
    is on, is blacked out. *)
Lemma makeStep_without_target (L : Layout) (w : Tour.World) (st : Step) (p : Popup) :
  index (Tour.steps (Tour.this w)) (Tour.step (Tour.this w)) = Some st ->
  truthy (step_id st) = false ->
  Tour.popupElement (Tour.this w) = Some p ->
  let w' := after (Tour.makeStep L) w in
  let p' := mkPopup (Some (Tour.popupHtml (Tour.this w) st))
                    (popup_left p) (popup_top p) (popup_attached p) in
  let c := centerPos (innerWidth L) (innerHeight L) (popupRect L p') in
  Tour.currentElement (Tour.this w') = None /\
  Tour.popupElement (Tour.this w') =
    Some (mkPopup (innerHTML p') (Some (pos_x c)) (Some (pos_y c)) (popup_attached p)) /\
  (Options.spotlight (Tour.options (Tour.this w)) = true ->
   forall sp, Tour.spotlight (Tour.this w) = Some sp ->
   Tour.spotlight (Tour.this w') = Some (after Spotlight.blackout sp)) /\
  (Options.spotlight (Tour.options (Tour.this w)) = false ->
   Tour.spotlight (Tour.this w') = Tour.spotlight (Tour.this w)).
Proof.
  intros Hidx Hid Hp.
  destruct w as [o pg]. destruct o. cbn in *. subst.
  unfold after, Tour.makeStep, Tour.updatePopup, Tour.currentStep, Tour.getCenterPos,
    Tour.movePopup, Tour.withSpotlight, Tour.toggleScroll, bind, gets, modify, when, ret.
  cbn. rewrite Hidx. cbn. rewrite Hidx. cbn. rewrite Hid. cbn.
  destruct (Options.spotlight options) eqn:Eo; cbn.
  - destruct spotlight as [sp|]; cbn.
    + destruct (Spotlight.blackout sp) as [[[]|e] sp'] eqn:Eb; cbn.
      * destruct (Options.disableScroll options); cbn; repeat split; try discriminate.
        all: intros _ sp0 [= <-]; rewrite Eb; reflexivity.
      * repeat split; try discriminate. intros _ sp0 [= <-]; rewrite Eb; reflexivity.
    + repeat split; try discriminate.
  - destruct (Options.disableScroll options); cbn; repeat split; try discriminate.
Qed.

(** C7: in centred mode the popup's coordinates are
    [x = (viewportWidth - popupWidth) / 2] and
    [y = (viewportHeight - popupHeight) / 2], that is
    [x + popupWidth / 2 = viewportWidth / 2] and
    [y + popupHeight / 2 = viewportHeight / 2]: this is what
    [getCenterPos] returns, and where a render puts the popup when the
    step has no target element (the popup being measured with its new
    content). *)
Theorem getCenterPos_centred (L : Layout) (w : Tour.World) (p : Popup) :
  Tour.popupElement (Tour.this w) = Some p ->
  (exists pos,
     Tour.getCenterPos L w = (Ok pos, w) /\
     pos_x pos == (innerWidth L - r_width (popupRect L p)) / 2 /\
     pos_y pos == (innerHeight L - r_height (popupRect L p)) / 2 /\
     pos_x pos + r_width (popupRect L p) / 2 == innerWidth L / 2 /\
     pos_y pos + r_height (popupRect L p) / 2 == innerHeight L / 2) /\
  (forall st,
     index (Tour.steps (Tour.this w)) (Tour.step (Tour.this w)) = Some st ->
     truthy (step_id st) = false ->
     let p' := mkPopup (Some (Tour.popupHtml (Tour.this w) st))
                       (popup_left p) (popup_top p) (popup_attached p) in
     exists x y,
       Tour.popupElement (Tour.this (after (Tour.makeStep L) w)) =
         Some (mkPopup (innerHTML p') (Some x) (Some y) (popup_attached p)) /\
       x == (innerWidth L - r_width (popupRect L p')) / 2 /\
       y == (innerHeight L - r_height (popupRect L p')) / 2 /\
       x + r_width (popupRect L p') / 2 == innerWidth L / 2 /\
       y + r_height (popupRect L p') / 2 == innerHeight L / 2).
Proof.
  intros Hp. split.
  - eexists. split.
    + unfold Tour.getCenterPos, bind, gets. cbn. rewrite Hp. reflexivity.
    + unfold centerPos. cbn. repeat split; field.
  - intros st Hidx Hid p'.
    destruct (makeStep_without_target L w st p Hidx Hid Hp) as (_ & Hpop & _).
    eexists _, _. split; [exact Hpop|].
    subst p'. unfold centerPos. cbn. repeat split; field.
Qed.

Lemma getCenterPos_centred_witness :
  exists p pos,
    Tour.popupElement (Tour.this Example.centred) = Some p /\
    Tour.getCenterPos Example.layout Example.centred = (Ok pos, Example.centred) /\
    pos_x pos == 350 /\ pos_y pos == 340 /\
    popup_left p = Some (pos_x pos) /\ popup_top p = Some (pos_y pos).
Proof.
  eexists.
  destruct (getCenterPos_centred Example.layout Example.centred _ eq_refl)
    as ((pos & Hrun & Hx & Hy & _) & _).
  exists pos. split; [reflexivity|]. split; [exact Hrun|].
  split; [rewrite Hx; reflexivity|]. split; [rewrite Hy; reflexivity|].
  vm_compute in Hrun. injection Hrun as <-. split; reflexivity.
Defined.

(** ** Spotlight geometry *)

(** [move] on a spotlight that has its four panels. *)
Lemma move_run (rect : Rect) (pad : Q) (p0 p1 p2 p3 : Panel) (rest : list Panel) :
  Spotlight.move rect (Spotlight.mk pad (p0 :: p1 :: p2 :: p3 :: rest)) =
  (Ok tt,
   Spotlight.mk pad
     (set_top (r_top rect - pad - r_height (panelRect p0)) p0
      :: set_height (r_height rect + pad * 2)
           (set_top (r_top rect - pad) (set_left (r_right rect + pad) p1))
      :: set_top (r_bottom rect + pad) p2
      :: set_height (r_height rect + pad * 2)
           (set_top (r_top rect - pad)
              (set_left (r_left rect - pad - r_width (panelRect p3)) p3))
      :: rest)).
Proof. reflexivity. Qed.

(** [blackout] on a spotlight that has its four panels. *)
Lemma blackout_run (pad : Q) (p0 p1 p2 p3 : Panel) (rest : list Panel) :
  Spotlight.blackout (Spotlight.mk pad (p0 :: p1 :: p2 :: p3 :: rest)) =
  (Ok tt,
   Spotlight.mk pad
     (set_top 0 p0
      :: set_left (r_width (panelRect p1)) p1
      :: set_top (r_height (panelRect p2)) p2
      :: set_left (- r_width (panelRect p3)) p3
      :: rest)).
Proof. reflexivity. Qed.

(** The constructor leaves four panels, all in the document. *)
Lemma constructor_panels (css : OverlayCss) (padding : option Q) :
  Spotlight.constructor css padding =
  Spotlight.mk (default 0 padding)
               [newPanel css; newPanel css; newPanel css; newPanel css].
Proof. reflexivity. Qed.

Ltac open_panels :=
  repeat match goal with
         | p : Panel |- _ => destruct p as [? ? ? [? ? ? ?] ?]
         end;
  cbn in *; subst; cbn in *.

Ltac open_rects :=
  unfold covers, inRect, expand, panelRect, r_right, r_bottom,
    set_top, set_left, set_height in *;
  cbn in *.

(** However large the style sheet makes the overlays, some target leaves
    the viewport's origin unmasked: one further down than the top panel
    is high. *)
Lemma move_gap_above_far_target (pad : Q) (p0 p1 p2 p3 : Panel) :
  0 <= pad ->
  let R := mkRect 0 (pad + Qabs (r_height (panelRect p0)) + 1) 0 0 in
  ~ inRect (expand R pad) 0 0 /\
  forall q,
    q ∈ Spotlight.spotlight
          (after (Spotlight.move R) (Spotlight.mk pad [p0; p1; p2; p3])) ->
    ~ covers q 0 0.
Proof.
  intros Hpad R.
  pose proof (Qabs_nonneg (r_height (panelRect p0))) as Habs.
  pose proof (Qle_Qabs (r_height (panelRect p0))) as Hle.
  unfold after. rewrite move_run. cbn [snd Spotlight.spotlight].
  split.
  - unfold inRect, expand, R. cbn. lra.
  - intros q Hq.
    set (h0 := r_height (panelRect p0)) in *.
    assert (Hh : r_height (panelRect
               (set_top (r_top R - pad - h0) p0)) ==
               (if panel_attached p0 then h0 else 0)).
    { subst h0. unfold panelRect, set_top. cbn. destruct (panel_attached p0); cbn; reflexivity. }
    repeat (apply elem_of_cons in Hq as [-> | Hq]); [| | | | by apply elem_of_nil in Hq].
    + intros [Ha Hin]. unfold inRect, r_bottom in Hin.
      rewrite Hh in Hin. clear Hh.
      unfold panelRect, set_top in Hin. cbn in Ha. rewrite Ha in Hin.
      cbn in Hin. unfold R in Hin. cbn in Hin. lra.
    + intros [Ha Hin]. clear Hh. unfold inRect, r_bottom, panelRect, set_height, set_top, set_left in Hin.
      cbn in Ha. cbn in Hin. rewrite Ha in Hin. cbn in Hin. unfold R in Hin. cbn in Hin. lra.
    + intros [Ha Hin]. clear Hh. unfold inRect, r_bottom, panelRect, set_top in Hin.
      cbn in Ha. cbn in Hin. rewrite Ha in Hin. cbn in Hin. unfold R, r_bottom in Hin. cbn in Hin. lra.
    + intros [Ha Hin]. clear Hh. unfold inRect, r_bottom, panelRect, set_height, set_top, set_left in Hin.
      cbn in Ha. cbn in Hin. rewrite Ha in Hin. cbn in Hin. unfold R in Hin. cbn in Hin. lra.
Qed.

(** C5, on one target: with overlays of the size of a 1000 x 800 viewport
    and padding 10, a target at 2000 from the top leaves the origin of
    the viewport outside every panel, although it is not in the padded
    target rectangle. *)
Lemma move_leaves_viewport_unmasked :
  let sp := Spotlight.constructor Example.css (Some 10) in
  let R := mkRect 100 2000 200 50 in
  exists sp',
    Spotlight.move R sp = (Ok tt, sp') /\
    (0 <= 0 < 1000 /\ 0 <= 0 < 800) /\
    ~ inRect (expand R 10) 0 0 /\
    forall q, q ∈ Spotlight.spotlight sp' -> ~ covers q 0 0.
Proof.
  intros sp R. eexists. split; [reflexivity|].
  split; [lra|]. split.
  - unfold inRect, expand, R, r_right, r_bottom. cbn. lra.
  - intros q Hq.
    repeat (apply elem_of_cons in Hq as [-> | Hq]); [| | | | by apply elem_of_nil in Hq];
      intros [_ Hin]; unfold inRect, r_right, r_bottom in Hin; cbn in Hin; lra.
Qed.

(** C5: after [move(R)] with padding [p >= 0] on four panels in the
    document, the top panel ends at [R.top - p], the bottom panel starts
    at [R.bottom + p], the right panel starts at [R.right + p] and the
    left panel ends at [R.left - p], both at top [R.top - p] with height
    [R.height + 2p]; the top and bottom panels keep the left edge and
    width the style sheet gives them; no two panels share a point and none
    reaches into [R] grown by [p].  The panels mask every point of the
    viewport outside that rectangle when they reach the viewport's edges
    from it: the top and bottom panels span the viewport's width, and the
    target is no further from an edge than the panel on that side is
    large. *)
Theorem move_panels_around_target (R : Rect) (pad : Q) (p0 p1 p2 p3 : Panel) :
  0 <= pad -> 0 <= r_width R -> 0 <= r_height R ->
  panel_attached p0 = true -> panel_attached p1 = true ->
  panel_attached p2 = true -> panel_attached p3 = true ->
  exists q0 q1 q2 q3,
    Spotlight.move R (Spotlight.mk pad [p0; p1; p2; p3]) =
      (Ok tt, Spotlight.mk pad [q0; q1; q2; q3]) /\
    (* edges *)
    (r_bottom (panelRect q0) == r_top R - pad /\
     r_left (panelRect q0) = r_left (panelRect p0) /\
     r_width (panelRect q0) = r_width (panelRect p0)) /\
    (r_top (panelRect q2) == r_bottom R + pad /\
     r_left (panelRect q2) = r_left (panelRect p2) /\
     r_width (panelRect q2) = r_width (panelRect p2)) /\
    (r_left (panelRect q1) == r_right R + pad /\
     r_top (panelRect q1) == r_top R - pad /\
     r_height (panelRect q1) == r_height R + 2 * pad) /\
    (r_right (panelRect q3) == r_left R - pad /\
     r_top (panelRect q3) == r_top R - pad /\
     r_height (panelRect q3) == r_height R + 2 * pad) /\
    (* no overlap, and the padded target stays clear *)
    (forall x y,
       ~ (covers q0 x y /\ covers q1 x y) /\ ~ (covers q0 x y /\ covers q2 x y) /\
       ~ (covers q0 x y /\ covers q3 x y) /\ ~ (covers q1 x y /\ covers q2 x y) /\
       ~ (covers q1 x y /\ covers q3 x y) /\ ~ (covers q2 x y /\ covers q3 x y)) /\
    (forall x y,
       inRect (expand R pad) x y ->
       ~ (covers q0 x y \/ covers q1 x y \/ covers q2 x y \/ covers q3 x y)) /\
    (* the rest of the viewport, as far as the panels reach *)
    (forall W H,
       r_left (panelRect p0) <= 0 -> W <= r_right (panelRect p0) ->
       r_left (panelRect p2) <= 0 -> W <= r_right (panelRect p2) ->
       r_top R - pad <= r_height (panelRect p0) ->
       H <= r_bottom R + pad + r_height (panelRect p2) ->
       r_left R - pad <= r_width (panelRect p3) ->
       W <= r_right R + pad + r_width (panelRect p1) ->
       forall x y,
         0 <= x < W -> 0 <= y < H -> ~ inRect (expand R pad) x y ->
         covers q0 x y \/ covers q1 x y \/ covers q2 x y \/ covers q3 x y).
Proof.
  intros Hpad Hw Hh A0 A1 A2 A3.
  eexists _, _, _, _. split; [apply move_run|].
  destruct R as [rl rt rw rh].
  open_panels. open_rects.
  repeat split; try reflexivity; try lra.
  - intros x y Hin [[_ ?] | [[_ ?] | [[_ ?] | [_ ?]]]]; lra.
  - intros W H ? ? ? ? ? ? ? ? x y ? ? Hout.
    destruct (Qlt_le_dec y (rt - pad)) as [Hy | Hy].
    { left. split; [reflexivity|]. lra. }
    destruct (Qlt_le_dec y (rt + rh + pad)) as [Hy' | Hy'].
    2: { right. right. left. split; [reflexivity|]. lra. }
    destruct (Qlt_le_dec x (rl - pad)) as [Hx | Hx].
    { right. right. right. split; [reflexivity|]. lra. }
    destruct (Qlt_le_dec x (rl + rw + pad)) as [Hx' | Hx'].
    2: { right. left. split; [reflexivity|]. lra. }
    exfalso. apply Hout. lra.
Qed.

Lemma move_panels_around_target_witness :
  let p := newPanel Example.css in
  exists q0 q1 q2 q3,
    Spotlight.move (mkRect 100 100 200 50) (Spotlight.mk 10 [p; p; p; p]) =
      (Ok tt, Spotlight.mk 10 [q0; q1; q2; q3]) /\
    (covers q0 0 0 \/ covers q1 0 0 \/ covers q2 0 0 \/ covers q3 0 0).
Proof.
  intros p.
  destruct (move_panels_around_target (mkRect 100 100 200 50) 10 p p p p)
    as (q0 & q1 & q2 & q3 & Hrun & _ & _ & _ & _ & _ & _ & Hcov);
    try reflexivity; try (cbn; lra).
  exists q0, q1, q2, q3. split; [exact Hrun|].
  apply (Hcov 1000 800); unfold inRect, r_right, r_bottom; cbn; lra.
Defined.

(** C8, on one spotlight: [move] on an empty panel list throws. *)
Lemma move_without_panels_throws :
  Spotlight.move (mkRect 100 100 200 50) (Spotlight.mk 10 []) =
  (Throw TypeError, Spotlight.mk 10 []).
Proof. reflexivity. Qed.

(** C8: a spotlight has its four panels from its constructor on, and
    [move] then returns normally; [move] itself does not look at the
    length of the panel list: on an empty list it throws a [TypeError]
    and leaves the spotlight as it was. *)
Theorem move_needs_panels (css : OverlayCss) (padding : option Q) (rect : Rect) :
  length (Spotlight.spotlight (Spotlight.constructor css padding)) = 4%nat /\
  outcome (Spotlight.move rect) (Spotlight.constructor css padding) = Ok tt /\
  length (Spotlight.spotlight
            (after (Spotlight.move rect) (Spotlight.constructor css padding))) = 4%nat /\
  (forall sp,
     Spotlight.spotlight sp = [] ->
     Spotlight.move rect sp = (Throw TypeError, sp)).
Proof.
  rewrite constructor_panels. unfold outcome, after. rewrite move_run.
  repeat split.
  intros [pad l] Hl. cbn in Hl. subst l. reflexivity.
Qed.

Lemma move_needs_panels_witness :
  Spotlight.move (mkRect 0 0 10 10) (Spotlight.mk 5 []) =
  (Throw TypeError, Spotlight.mk 5 []).
Proof.
  apply (move_needs_panels Example.css None (mkRect 0 0 10 10)).
  reflexivity.
Defined.


(** ** What a render leaves alone *)

Section Preserves.
Context {S : Type} (R : S -> S -> Prop).
Hypothesis R_refl : forall s, R s s.
Hypothesis R_trans : forall s1 s2 s3, R s1 s2 -> R s2 s3 -> R s1 s3.

Lemma preserves_ret {A} (a : A) : preserves R (ret a).
Proof using R_refl. intros s. apply R_refl. Qed.

Lemma preserves_throw {A} (e : Exn) : preserves R (@throw S A e).
Proof using R_refl. intros s. apply R_refl. Qed.

Lemma preserves_gets {A} (f : S -> A) : preserves R (gets f).
Proof using R_refl. intros s. apply R_refl. Qed.

Lemma preserves_modify (f : S -> S) :
  (forall s, R s (f s)) -> preserves R (modify f).
Proof using Type. intros H s. apply H. Qed.

Lemma preserves_bind {A B} (m : M S A) (k : A -> M S B) :
  preserves R m -> (forall a, preserves R (k a)) -> preserves R (bind m k).
Proof using R_trans.
  intros Hm Hk s. specialize (Hm s). unfold after, bind in *.
  destruct (m s) as [[a | e] s'] eqn:E; cbn in *.
  - eapply R_trans; [exact Hm|]. apply Hk.
  - exact Hm.
Qed.

Lemma preserves_when (b : bool) (m : M S unit) :
  preserves R m -> preserves R (when b m).
Proof using R_refl. intros H. destruct b; cbn; [exact H | apply preserves_ret]. Qed.

End Preserves.

Lemma same_panels_refl (sp : Spotlight.t) : same_panels sp sp.
Proof. split; reflexivity. Qed.

Lemma same_panels_trans (sp1 sp2 sp3 : Spotlight.t) :
  same_panels sp1 sp2 -> same_panels sp2 sp3 -> same_panels sp1 sp3.
Proof. intros [? ?] [? ?]. split; congruence. Qed.

Lemma preserves_panel (i : nat) : preserves same_panels (Spotlight.panel i).
Proof.
  intros sp. unfold after, Spotlight.panel.
  destruct (Spotlight.spotlight sp !! i); apply same_panels_refl.
Qed.

Lemma preserves_assign (i : nat) (f : Panel -> Panel) :
  preserves same_panels (Spotlight.assign i f).
Proof.
  unfold Spotlight.assign.
  apply (preserves_bind _ same_panels_trans); [apply preserves_panel|].
  intros p. apply preserves_modify. intros [pad l]. split; cbn; [reflexivity|].
  apply length_insert.
Qed.

Ltac preserve_panels :=
  repeat match goal with
         | |- preserves _ (gets _) => apply preserves_gets, same_panels_refl
         | |- preserves _ (Spotlight.panel _) => apply preserves_panel
         | |- preserves _ (Spotlight.assign _ _) => apply preserves_assign
         | |- preserves _ (bind _ _) =>
             apply (preserves_bind _ same_panels_trans); [| intros ?]
         end.

(** [move] and [blackout] keep the padding and the number of panels,
    whether they throw or not. *)
Lemma preserves_move (rect : Rect) : preserves same_panels (Spotlight.move rect).
Proof. unfold Spotlight.move. preserve_panels. Qed.

Lemma preserves_blackout : preserves same_panels Spotlight.blackout.
Proof. unfold Spotlight.blackout. preserve_panels. Qed.

Lemma stable_refl (w : Tour.World) : stable w w.
Proof.
  unfold stable. repeat split; auto.
  intros sp Hsp. exists sp. split; [exact Hsp | apply same_panels_refl].
Qed.

Lemma stable_trans (w1 w2 w3 : Tour.World) :
  stable w1 w2 -> stable w2 w3 -> stable w1 w3.
Proof.
  unfold stable.
  intros (?&?&?&?&?&?&?&Hs1&?&?&?) (?&?&?&?&?&?&?&Hs2&?&?&?).
  repeat split; try congruence; auto.
  intros sp Hsp.
  destruct (Hs1 sp Hsp) as (sp' & Hsp' & Hsame).
  destruct (Hs2 sp' Hsp') as (sp'' & Hsp'' & Hsame').
  exists sp''. split; [exact Hsp''|]. eapply same_panels_trans; eassumption.
Qed.

Lemma preserves_withSpotlight (m : M Spotlight.t unit) :
  preserves same_panels m -> preserves stable (Tour.withSpotlight m).
Proof.
  intros Hm [o pg]. unfold after, Tour.withSpotlight. cbn.
  destruct (Tour.spotlight o) as [sp|] eqn:E; [|apply stable_refl].
  specialize (Hm sp). unfold after in Hm.
  destruct (m sp) as [r sp']. destruct o. cbn in *.
  unfold stable. cbn. repeat split; auto.
  intros sp0 Hsp0. rewrite E in Hsp0. injection Hsp0 as <-.
  exists sp'. split; [reflexivity | exact Hm].
Qed.

Lemma preserves_currentStep : preserves stable Tour.currentStep.
Proof.
  intros w. unfold after, Tour.currentStep.
  destruct (index _ _); apply stable_refl.
Qed.

Ltac stable_step :=
  let o := fresh "o" in
  let pg := fresh "pg" in
  intros [o pg]; destruct o, pg; unfold stable; cbn; repeat split; eauto;
  intros ? ?; eexists; split; [eassumption | apply same_panels_refl].

Ltac preserve :=
  repeat match goal with
         | |- preserves _ (ret _) => apply preserves_ret, stable_refl
         | |- preserves _ (throw _) => apply preserves_throw, stable_refl
         | |- preserves _ (gets _) => apply preserves_gets, stable_refl
         | |- preserves _ Tour.currentStep => apply preserves_currentStep
         | |- preserves _ (Tour.withSpotlight (Spotlight.move _)) =>
             apply preserves_withSpotlight, preserves_move
         | |- preserves _ (Tour.withSpotlight Spotlight.blackout) =>
             apply preserves_withSpotlight, preserves_blackout
         | |- preserves _ (when _ _) => apply (preserves_when _ stable_refl)
         | |- preserves _ (bind _ _) =>
             apply (preserves_bind _ stable_trans); [| intros ?]
         | |- preserves _ (modify _) => apply preserves_modify; stable_step
         | |- preserves _ (if ?b then _ else _) => destruct b
         | |- preserves _ (match ?x with _ => _ end) => destruct x
         end.

Lemma preserves_scrollIntoView (e : string) (b : bool) :
  preserves stable (Tour.scrollIntoView e b).
Proof. unfold Tour.scrollIntoView. preserve. Qed.

Lemma preserves_toggleScroll (L : Layout) (b : bool) :
  preserves stable (Tour.toggleScroll L b).
Proof. unfold Tour.toggleScroll. preserve. Qed.

Lemma preserves_toggleResizeObserver (b : bool) :
  preserves stable (Tour.toggleResizeObserver b).
Proof. unfold Tour.toggleResizeObserver. preserve. Qed.

Lemma preserves_updatePopup : preserves stable Tour.updatePopup.
Proof. unfold Tour.updatePopup. preserve. Qed.

Lemma preserves_movePopup (c : Pos) : preserves stable (Tour.movePopup c).
Proof. unfold Tour.movePopup. preserve. Qed.

Lemma preserves_getCenterPos (L : Layout) : preserves stable (Tour.getCenterPos L).
Proof. unfold Tour.getCenterPos. preserve. Qed.

Lemma preserves_getPopupPos (L : Layout) : preserves stable (Tour.getPopupPos L).
Proof.
  unfold Tour.getPopupPos. preserve; apply preserves_scrollIntoView.
Qed.

(** A render changes the popup, the spotlight's panels, the current
    element, the observed elements, the scroll history and the scroll
    lock, and nothing else. *)
Lemma preserves_makeStep (L : Layout) : preserves stable (Tour.makeStep L).
Proof.
  unfold Tour.makeStep.
  preserve;
    first [ apply preserves_updatePopup
          | apply preserves_toggleResizeObserver
          | apply preserves_getPopupPos
          | apply preserves_getCenterPos
          | apply preserves_movePopup
          | apply preserves_toggleScroll ].
Qed.

(** ** start, next and endTour *)

Lemma start_run (L : Layout) (w : Tour.World) :
  Tour.currentState (Tour.this w) ≠ 1%Z ->
  Tour.start L w = Tour.makeStep L (start_world L w).
Proof.
  intros Hs. unfold Tour.start, bind, gets. cbn.
  destruct (Z.eqb_spec (Tour.currentState (Tour.this w)) 1) as [E | _]; [contradiction|].
  cbn. unfold start_world. destruct w as [o pg]. cbn.
  destruct (Options.spotlight (Tour.options o)); reflexivity.
Qed.

Lemma start_warns (L : Layout) (w : Tour.World) :
  Tour.currentState (Tour.this w) = 1%Z ->
  Tour.start L w =
  (Ok tt,
   Tour.on_page (fun p =>
     Tour.set_console (console p ++ [Warn "The Tour has already started."]) p) w).
Proof.
  intros Hs. unfold Tour.start, bind, gets. cbn. rewrite Hs. reflexivity.
Qed.

Lemma next_run (L : Layout) (w : Tour.World) :
  Tour.next L w =
  if num_lt_length (incr (Tour.step (Tour.this w))) (length (Tour.steps (Tour.this w)))
  then Tour.makeStep L (next_world w)
  else Tour.endTour L (next_world w).
Proof.
  unfold Tour.next, next_world, bind, gets, modify. destruct w as [o pg]. cbn.
  destruct (Tour.currentElement o) as [e|] eqn:E; cbn.
  - unfold Tour.toggleResizeObserver, bind, gets, modify. cbn. rewrite E. cbn.
    destruct (num_lt_length _ _); reflexivity.
  - destruct (num_lt_length _ _); reflexivity.
Qed.

(** [endTour] sets the state before anything can throw; with a popup, and
    a spotlight when the option asks for one, it returns normally and the
    popup is out of the document. *)
Lemma endTour_run (L : Layout) (w : Tour.World) :
  let w' := after (Tour.endTour L) w in
  Tour.currentState (Tour.this w') = 2%Z /\
  Tour.step (Tour.this w') = Tour.step (Tour.this w) /\
  (is_Some (Tour.popupElement (Tour.this w)) ->
   (Options.spotlight (Tour.options (Tour.this w)) = true ->
    is_Some (Tour.spotlight (Tour.this w))) ->
   outcome (Tour.endTour L) w = Ok tt /\
   (exists p, Tour.popupElement (Tour.this w') = Some p /\ popup_attached p = false) /\
   onresize (Tour.page w') = IgnoreResize /\
   onscroll (Tour.page w') = IgnoreScroll).
Proof.
  destruct w as [o pg]. unfold after, outcome, Tour.endTour, bind, gets, modify. cbn.
  destruct (Tour.popupElement o) as [p|] eqn:Ep; cbn.
  - destruct (Options.spotlight (Tour.options o)) eqn:Eo; cbn.
    + unfold Tour.withSpotlight. cbn.
      destruct (Tour.spotlight o) as [sp|] eqn:Es; cbn.
      * split; [reflexivity|]. split; [reflexivity|]. intros _ _.
        repeat split; eauto.
      * split; [reflexivity|]. split; [reflexivity|]. intros _ Hsp.
        destruct (Hsp eq_refl) as [? ?]; discriminate.
    + split; [reflexivity|]. split; [reflexivity|]. intros _ _.
      repeat split; eauto.
  - split; [reflexivity|]. split; [reflexivity|]. intros [? ?]; discriminate.
Qed.

(** A render returns normally when the step exists, the popup exists,
    the step's target (if it names one) is in the document, and the
    spotlight (if the option is on) has its four panels. *)
Lemma makeStep_ok (L : Layout) (w : Tour.World) (st : Step) :
  index (Tour.steps (Tour.this w)) (Tour.step (Tour.this w)) = Some st ->
  is_Some (Tour.popupElement (Tour.this w)) ->
  resolves L st ->
  (Options.spotlight (Tour.options (Tour.this w)) = true ->
   exists sp, Tour.spotlight (Tour.this w) = Some sp /\
              (4 <= length (Spotlight.spotlight sp))%nat) ->
  outcome (Tour.makeStep L) w = Ok tt.
Proof.
  intros Hidx [p Hp] Hres Hsp.
  destruct w as [o pg]. destruct o. cbn in *. subst.
  assert (Hpanels : Options.spotlight options = true ->
            exists pad p0 p1 p2 p3 rest,
              spotlight = Some (Spotlight.mk pad (p0 :: p1 :: p2 :: p3 :: rest))).
  { intros Ho. destruct (Hsp Ho) as ([pad l] & -> & Hlen). cbn in Hlen.
    destruct l as [|p0 [|p1 [|p2 [|p3 rest]]]]; cbn in Hlen; try lia.
    eauto 10. }
  clear Hsp.
  unfold outcome, Tour.makeStep, Tour.updatePopup, Tour.currentStep, Tour.getCenterPos,
    Tour.getPopupPos, Tour.toggleResizeObserver, Tour.scrollIntoView,
    Tour.movePopup, Tour.withSpotlight, Tour.toggleScroll, bind, gets, modify, ret.
  cbn. rewrite Hidx. cbn. rewrite Hidx. cbn.
  unfold resolves in Hres.
  destruct (truthy (step_id st)) eqn:Hid; cbn.
  - destruct (step_id st) as [e|] eqn:He; [|discriminate Hid].
    cbn. rewrite (Hres e eq_refl Hid). cbn.
    destruct (popupPos _ _ _ _) as [pos [|]]; cbn;
      (destruct (Options.spotlight options) eqn:Eo; cbn;
       [ destruct (Hpanels eq_refl) as (pad & p0 & p1 & p2 & p3 & rest & ->); cbn;
         destruct (Options.disableScroll options); reflexivity
       | destruct (Options.disableScroll options); reflexivity ]).
  - destruct (Options.spotlight options) eqn:Eo; cbn.
    + destruct (Hpanels eq_refl) as (pad & p0 & p1 & p2 & p3 & rest & ->); cbn.
      destruct (Options.disableScroll options); reflexivity.
    + destruct (Options.disableScroll options); reflexivity.
Qed.

Lemma running_stable (ss : list Step) (k : Z) (w w' : Tour.World) :
  running ss k w -> stable w w' -> running ss k w'.
Proof.
  unfold running, stable.
  intros (?&?&?&?&Hsp) (?&?&?&?&Ho&?&?&Hs&?&?&?).
  repeat split; try congruence; auto.
  rewrite Ho. intros Hon.
  destruct (Hsp Hon) as (sp & Hsome & Hlen).
  destruct (Hs sp Hsome) as (sp' & Hsome' & _ & Hlen').
  exists sp'. split; [exact Hsome' | lia].
Qed.

Lemma start_world_running (L : Layout) (w : Tour.World) (k : Z) :
  Tour.step (Tour.this w) = Int k ->
  running (Tour.steps (Tour.this w)) k (start_world L w).
Proof.
  intros Hk. destruct w as [o pg]. unfold running, start_world. cbn.
  destruct o; cbn in *.
  destruct (Options.spotlight options) eqn:E; cbn; repeat split; eauto; try congruence.
Qed.

Lemma next_world_running (ss : list Step) (k : Z) (w : Tour.World) :
  running ss k w -> running ss (k + 1) (next_world w).
Proof.
  intros (Hs & Hk & Hss & Hp & Hsp). destruct w as [o pg]. unfold running, next_world.
  destruct o; cbn in *. rewrite Hk.
  destruct currentElement; cbn; repeat split; auto.
Qed.

(** After [start()] and [k] calls of [next()], for [k] below the number
    of steps, the tour is under way at step [k]. *)
Lemma next_times_running (L : Layout) (w0 : Tour.World) (k : nat) :
  Tour.currentState (Tour.this w0) ≠ 1%Z ->
  Tour.step (Tour.this w0) = Int 0 ->
  (k < length (Tour.steps (Tour.this w0)))%nat ->
  running (Tour.steps (Tour.this w0)) (Z.of_nat k)
          (Tour.next_times L k (after (Tour.start L) w0)).
Proof.
  intros Hs H0. induction k as [|k IH]; intros Hk.
  - cbn. unfold after. rewrite start_run by exact Hs.
    eapply running_stable; [apply start_world_running; exact H0|].
    apply preserves_makeStep.
  - specialize (IH ltac:(lia)).
    cbn [Tour.next_times].
    set (w := Tour.next_times L k (after (Tour.start L) w0)) in *.
    unfold after at 1. rewrite next_run.
    destruct IH as (Hst & Hstep & Hss & Hrest).
    rewrite Hstep, Hss. cbn.
    destruct (Z.ltb_spec (Z.of_nat k + 1) (Z.of_nat (length (Tour.steps (Tour.this w0)))));
      [|lia].
    replace (Z.of_nat (S k)) with (Z.of_nat k + 1)%Z by lia.
    apply (running_stable _ _ (next_world w));
      [apply next_world_running; unfold running; tauto|].
    apply preserves_makeStep.
Qed.

(** A render of a step in range, in a tour under way on a page that has
    the targets of its steps, returns normally. *)
Lemma running_makeStep_ok (L : Layout) (ss : list Step) (k : nat) (w : Tour.World) :
  running ss (Z.of_nat k) w ->
  (k < length ss)%nat ->
  (forall st, st ∈ ss -> resolves L st) ->
  outcome (Tour.makeStep L) w = Ok tt.
Proof.
  intros (_ & Hk & Hss & Hp & Hsp) Hlt Hres.
  destruct (lookup_lt_is_Some_2 ss k Hlt) as [st Hst].
  apply (makeStep_ok L w st).
  - rewrite Hk, Hss. cbn.
    destruct (Z.leb_spec 0 (Z.of_nat k)); [|lia].
    rewrite Nat2Z.id. exact Hst.
  - exact Hp.
  - apply Hres. eapply list_elem_of_lookup_2. exact Hst.
  - exact Hsp.
Qed.

(** C1: a tour of [N >= 1] steps in the Configuring state at index 0 is
    started, which renders step 0, and [next()] is called [N] times.
    Each of the first [N - 1] calls moves to the next index and renders
    that step, and the tour stays Started; the [N]th call runs [endTour],
    returns normally and leaves the tour Finished; that state is reached
    on the [N]th call and on no earlier one.  On a page that has the
    targets of the steps, every one of these calls returns normally. *)
Theorem next_N_times_finishes_on_Nth (L : Layout) (w0 : Tour.World) (N : nat) :
  Tour.currentState (Tour.this w0) = 0%Z ->
  Tour.step (Tour.this w0) = Int 0 ->
  length (Tour.steps (Tour.this w0)) = N ->
  (1 <= N)%nat ->
  let w := fun k => Tour.next_times L k (after (Tour.start L) w0) in
  (Tour.start L w0 = Tour.makeStep L (start_world L w0) /\
   Tour.step (Tour.this (start_world L w0)) = Int 0 /\
   Tour.currentState (Tour.this (w 0%nat)) = 1%Z /\
   Tour.step (Tour.this (w 0%nat)) = Int 0) /\
  (forall k, (1 <= k < N)%nat ->
     Tour.next L (w (k - 1)%nat) = Tour.makeStep L (next_world (w (k - 1)%nat)) /\
     Tour.step (Tour.this (next_world (w (k - 1)%nat))) = Int (Z.of_nat k) /\
     Tour.currentState (Tour.this (w k)) = 1%Z /\
     Tour.step (Tour.this (w k)) = Int (Z.of_nat k)) /\
  (Tour.next L (w (N - 1)%nat) = Tour.endTour L (next_world (w (N - 1)%nat)) /\
   outcome (Tour.next L) (w (N - 1)%nat) = Ok tt /\
   Tour.currentState (Tour.this (w N)) = 2%Z /\
   Tour.step (Tour.this (w N)) = Int (Z.of_nat N)) /\
  (forall k, (k <= N)%nat ->
     Tour.currentState (Tour.this (w k)) = 2%Z <-> k = N) /\
  ((forall st, st ∈ Tour.steps (Tour.this w0) -> resolves L st) ->
   outcome (Tour.start L) w0 = Ok tt /\
   forall k, (1 <= k <= N)%nat -> outcome (Tour.next L) (w (k - 1)%nat) = Ok tt).
Proof.
  intros Hs H0 HN Hpos w.
  assert (Hne : Tour.currentState (Tour.this w0) ≠ 1%Z) by (rewrite Hs; discriminate).
  assert (Hrun : forall k, (k < N)%nat ->
            running (Tour.steps (Tour.this w0)) (Z.of_nat k) (w k)).
  { intros k Hk. apply next_times_running; [exact Hne | exact H0 | lia]. }
  assert (Hnext : forall k, (k < N)%nat ->
            running (Tour.steps (Tour.this w0)) (Z.of_nat k + 1) (next_world (w k))).
  { intros k Hk. apply next_world_running, Hrun, Hk. }
  assert (Hmid : forall k, (1 <= k < N)%nat ->
            Tour.next L (w (k - 1)%nat) = Tour.makeStep L (next_world (w (k - 1)%nat))).
  { intros k Hk.
    destruct (Hrun (k - 1)%nat ltac:(lia)) as (_ & Hstep & Hss & _).
    rewrite next_run, Hstep, Hss, HN. cbn.
    destruct (Z.ltb_spec (Z.of_nat (k - 1) + 1) (Z.of_nat N)); [reflexivity | lia]. }
  assert (Hlast : Tour.next L (w (N - 1)%nat) = Tour.endTour L (next_world (w (N - 1)%nat))).
  { rewrite next_run.
    destruct (Hrun (N - 1)%nat ltac:(lia)) as (_ & Hk & Hss & _).
    rewrite Hk, Hss, HN. cbn.
    destruct (Z.ltb_spec (Z.of_nat (N - 1) + 1) (Z.of_nat N)); [lia | reflexivity]. }
  assert (HwN : w N = after (Tour.next L) (w (N - 1)%nat)).
  { subst w. cbn beta. destruct N as [|n]; [lia|].
    replace (S n - 1)%nat with n by lia. reflexivity. }
  assert (Hend : Tour.currentState (Tour.this (w N)) = 2%Z /\
                 Tour.step (Tour.this (w N)) = Int (Z.of_nat N) /\
                 outcome (Tour.next L) (w (N - 1)%nat) = Ok tt).
  { rewrite HwN. unfold after, outcome. rewrite Hlast.
    destruct (Hnext (N - 1)%nat ltac:(lia)) as (_ & Hk & _ & Hp & Hsp).
    destruct (endTour_run L (next_world (w (N - 1)%nat))) as (E2 & Estep & Hok).
    unfold after in E2, Estep. split; [exact E2|]. split.
    - rewrite Estep, Hk. f_equal. lia.
    - apply (Hok Hp). intros Ho. destruct (Hsp Ho) as (sp & -> & _). eauto. }
  destruct Hend as (E2 & EN & Eok).
  split; [|split; [|split; [|split]]].
  - split; [apply start_run, Hne|].
    split; [destruct w0 as [[] ?]; cbn in *;
            destruct (Options.spotlight options); cbn; exact H0|].
    destruct (Hrun 0%nat ltac:(lia)) as (H1 & H2 & _). split; assumption.
  - intros k Hk.
    destruct (Hnext (k - 1)%nat ltac:(lia)) as (_ & Hstep' & _).
    destruct (Hrun k ltac:(lia)) as (H1 & H2 & _).
    split; [apply Hmid, Hk|]. split; [|split; assumption].
    rewrite Hstep'. f_equal. lia.
  - repeat split; assumption.
  - intros k Hk. split.
    + intros H2. destruct (Nat.eq_dec k N) as [-> | Hneq]; [reflexivity|].
      destruct (Hrun k ltac:(lia)) as (H1 & _). congruence.
    + intros ->. exact E2.
  - intros Hres. split.
    + unfold outcome. rewrite start_run by exact Hne.
      apply (running_makeStep_ok L (Tour.steps (Tour.this w0)) 0);
        [apply start_world_running, H0 | lia | exact Hres].
    + intros k Hk. destruct (Nat.eq_dec k N) as [-> | Hneq]; [exact Eok|].
      unfold outcome. rewrite (Hmid k) by lia.
      apply (running_makeStep_ok L (Tour.steps (Tour.this w0)) k);
        [| lia | exact Hres].
      replace (Z.of_nat k) with (Z.of_nat (k - 1) + 1)%Z by lia.
      apply Hnext. lia.
Qed.

Lemma example_resolves (st : Step) :
  st ∈ Example.steps -> resolves Example.layout st.
Proof.
  intros Hst e He _.
  repeat (apply elem_of_cons in Hst as [-> | Hst]);
    [ injection He as <-; reflexivity
    | injection He as <-; reflexivity
    | by apply elem_of_nil in Hst ].
Qed.

Lemma next_N_times_finishes_on_Nth_witness :
  Tour.currentState (Tour.this (Tour.next_times Example.layout 1 Example.started)) = 1%Z /\
  Tour.currentState (Tour.this (Tour.next_times Example.layout 2 Example.started)) = 2%Z /\
  outcome (Tour.next Example.layout)
          (Tour.next_times Example.layout 0 Example.started) = Ok tt.
Proof.
  destruct (next_N_times_finishes_on_Nth Example.layout Example.world0 2
              eq_refl eq_refl eq_refl ltac:(lia))
    as (_ & Hmid & (_ & _ & Hend & _) & _ & Hok).
  destruct (Hmid 1%nat ltac:(lia)) as (_ & _ & H1 & _).
  split; [exact H1|]. split; [exact Hend|].
  exact (proj2 (Hok example_resolves) 1%nat ltac:(lia)).
Defined.

(** C4, on one tour: [start()] on a Finished tour is not ignored; the
    state goes back to Started, a new popup replaces the removed one, the
    resize handler is registered again, and nothing is logged. *)
Lemma start_from_finished_restarts :
  let w' := after (Tour.start Example.layout) Example.finished in
  Tour.currentState (Tour.this Example.finished) = 2%Z /\
  Tour.currentState (Tour.this w') = 1%Z /\
  Tour.popupElement (Tour.this w') ≠ Tour.popupElement (Tour.this Example.finished) /\
  onresize (Tour.page Example.finished) = IgnoreResize /\
  onresize (Tour.page w') = Recalculate /\
  console (Tour.page w') = [].
Proof.
  cbv zeta. split; [reflexivity|]. split; [reflexivity|].
  split; [|repeat split; reflexivity].
  intros H. vm_compute in H. discriminate H.
Qed.

(** C4: [start()] is ignored, with a warning, when the tour is Started:
    the tour object (state, index, popup, spotlight) and the page but for
    the log stay as they are.  From any other state, Configuring or
    Finished, it sets the state to Started, registers the resize handler,
    makes a new popup, makes a spotlight if the option asks for one, and
    renders the current step, without logging. *)
Theorem start_ignored_only_when_started (L : Layout) (w : Tour.World) :
  (Tour.currentState (Tour.this w) = 1%Z ->
   exists w',
     Tour.start L w = (Ok tt, w') /\
     Tour.this w' = Tour.this w /\
     console (Tour.page w') =
       console (Tour.page w) ++ [Warn "The Tour has already started."] /\
     onresize (Tour.page w') = onresize (Tour.page w) /\
     onscroll (Tour.page w') = onscroll (Tour.page w) /\
     scrolls (Tour.page w') = scrolls (Tour.page w) /\
     sessionStorage (Tour.page w') = sessionStorage (Tour.page w)) /\
  (Tour.currentState (Tour.this w) ≠ 1%Z ->
   let w' := after (Tour.start L) w in
   Tour.start L w = Tour.makeStep L (start_world L w) /\
   Tour.currentState (Tour.this w') = 1%Z /\
   Tour.step (Tour.this w') = Tour.step (Tour.this w) /\
   onresize (Tour.page w') = Recalculate /\
   is_Some (Tour.popupElement (Tour.this w')) /\
   (Options.spotlight (Tour.options (Tour.this w)) = true ->
    is_Some (Tour.spotlight (Tour.this w'))) /\
   console (Tour.page w') = console (Tour.page w)).
Proof.
  split.
  - intros Hs. eexists. split; [apply start_warns, Hs|].
    destruct w as [o pg]. cbn. repeat split.
  - intros Hs w'. split; [apply start_run, Hs|].
    assert (Hst : stable (start_world L w) w').
    { subst w'. unfold after. rewrite start_run by exact Hs. apply preserves_makeStep. }
    destruct Hst as (_ & _ & Hstep & Hstate & Hopt & _ & Hp & Hsp & Hc & Hr & _).
    destruct w as [[] pg]. unfold start_world in *. cbn in *.
    destruct (Options.spotlight options) eqn:E; cbn in *.
    + destruct (Hsp _ eq_refl) as (sp' & Hsp' & _).
      repeat split; try assumption; eauto.
    + repeat split; try assumption; eauto. intros; discriminate.
Qed.

Lemma start_ignored_only_when_started_witness :
  (exists w',
     Tour.start Example.layout Example.started = (Ok tt, w') /\
     Tour.this w' = Tour.this Example.started) /\
  Tour.currentState (Tour.this (after (Tour.start Example.layout) Example.world0)) = 1%Z /\
  Tour.currentState (Tour.this (after (Tour.start Example.layout) Example.finished)) = 1%Z.
Proof.
  split; [|split].
  - destruct (proj1 (start_ignored_only_when_started Example.layout Example.started) eq_refl)
      as (w' & Hrun & Hthis & _).
    exists w'. split; assumption.
  - apply (proj2 (start_ignored_only_when_started Example.layout Example.world0)).
    intros H. vm_compute in H. discriminate H.
  - apply (proj2 (start_ignored_only_when_started Example.layout Example.finished)).
    intros H. vm_compute in H. discriminate H.
Defined.

(** ** blackout *)



(** ** Placeholders *)

Lemma prefix_drop_chars (pat s : string) :
  String.prefix pat s = true -> s = pat +:+ drop_chars (String.length pat) s.
Proof.
  revert s. induction pat as [|c pat IH]; intros s H; [reflexivity|].
  destruct s as [|d s]; [discriminate|]. cbn in H.
  destruct (ascii_dec c d) as [-> | _]; [|discriminate].
  change (String d s = String d (pat +:+ drop_chars (String.length pat) s)).
  f_equal. apply IH, H.
Qed.

Lemma split_first_eq (pat s : string) :
  split_first pat s =
  if String.prefix pat s then Some (EmptyString, drop_chars (String.length pat) s)
  else match s with
       | EmptyString => None
       | String c s' =>
           match split_first pat s' with
           | Some (before, after) => Some (String c before, after)
           | None => None
           end
       end.
Proof. destruct s; reflexivity. Qed.

(** [split_first] cuts the text around an occurrence of the pattern. *)
Lemma split_first_spec (pat s before after : string) :
  split_first pat s = Some (before, after) -> s = before +:+ pat +:+ after.
Proof.
  revert before. induction s as [|c s IH]; intros before H;
    rewrite split_first_eq in H;
    destruct (String.prefix pat _) eqn:E;
    try (injection H as <- <-; apply (prefix_drop_chars _ _ E)).
  - discriminate.
  - destruct (split_first pat s) as [[b a]|]; [|discriminate].
    injection H as <- <-.
    change (String c s = String c (b +:+ pat +:+ a)).
    f_equal. apply IH. reflexivity.
Qed.

Lemma getSubstitution_plain (matched before after v : string) :
  (forall c, c ∈ list_ascii_of_string v -> c ≠ "$"%char) -> getSubstitution matched before after v = v.
Proof.
  induction v as [|c v IH]; intros H; [reflexivity|]. cbn.
  destruct (Ascii.eqb_spec c "$") as [-> | _].
  - exfalso. apply (H "$"%char); [cbn; left | reflexivity].
  - f_equal. apply IH. intros d Hd. apply H. cbn. right. exact Hd.
Qed.

(** What [replace] does with a replacement text without dollar sign: the
    text is cut around one occurrence of the pattern, which is replaced;
    a text without occurrence is returned as it is. *)
Lemma replace_one_occurrence (pat v s before after : string) :
  split_first pat s = Some (before, after) ->
  (forall c, c ∈ list_ascii_of_string v -> c ≠ "$"%char) ->
  s = before +:+ pat +:+ after /\ replace pat v s = before +:+ v +:+ after.
Proof.
  intros Hs Hv. split; [apply split_first_spec, Hs|].
  unfold replace. rewrite Hs, getSubstitution_plain by exact Hv. reflexivity.
Qed.

Lemma replace_no_occurrence (pat v s : string) :
  split_first pat s = None -> replace pat v s = s.
Proof. intros Hs. unfold replace. rewrite Hs. reflexivity. Qed.

(** The scenario of the documentation: two steps, [n] set to ["Sam"]. *)
Example scenario_two_steps :
  let popup w := innerHTML <$> Tour.popupElement (Tour.this w) in
  popup Example.started =
    Some (Some (mkContent None "Hi Sam" None "Next")) /\
  popup (Tour.next_times Example.layout 1 Example.started) =
    Some (Some (mkContent None "Bye" (Some "Previous"%string) "End tour")) /\
  (popup_attached <$> Tour.popupElement (Tour.this Example.finished)) = Some false.
Proof. repeat split; reflexivity. Qed.

(** C2, evaluated: a text that names the placeholder twice keeps the
    second occurrence, in [formatText] and in the popup a render fills;
    and a placeholder whose name only starts with a variable's name is
    changed.  A single occurrence is replaced. *)
Theorem formatText_replaces_first_occurrence_only :
  Tour.formatText [("n", "Sam")]%string "PLACEHOLDER-n and PLACEHOLDER-n" =
    "Sam and PLACEHOLDER-n"%string /\
  (exists p c,
     Tour.popupElement (Tour.this (after (Tour.start Example.layout) Example.twice0)) = Some p /\
     innerHTML p = Some c /\
     pc_text c = "Sam and PLACEHOLDER-n"%string) /\
  Tour.formatText [("n", "Sam")]%string "Hi PLACEHOLDER-name" = "Hi Samame"%string /\
  Tour.formatText [("n", "Sam")]%string "Hi PLACEHOLDER-n" = "Hi Sam"%string.
Proof.
  split; [reflexivity|]. split; [|split; reflexivity].
  eexists _, _. split; [reflexivity|]. split; reflexivity.
Qed.

(** ** save and getSavedTour *)

(** What [getSavedTour] makes of a saved tour found under the key it
    reads: the steps, options and variables of the saved tour, the index
    parsed back from its text, the Configuring state and no spotlight. *)
Lemma getSavedTour_of_saved (o : Tour.t) (pg : Page) (varName : string) :
  sessionStorage pg !! "tour"%string = Some (Tour.savedObject o) ->
  exists o',
    Tour.getSavedTour varName pg = Ok o' /\
    Tour.steps o' = Tour.steps o /\
    Tour.options o' = Tour.options o /\
    Tour.textVariables o' = Tour.textVariables o /\
    Tour.step o' = parseInt (toString (Tour.step o)) /\
    Tour.currentState o' = 0%Z /\
    Tour.spotlight o' = None.
Proof.
  intros H. unfold Tour.getSavedTour. rewrite H. eexists. split; [reflexivity|].
  destruct o as [? ? ? ? ? ? ? ? [] ?]. cbn. repeat split.
Qed.

Example parseInt_toString_2 :
  toString (Int 2) = "2"%string /\ parseInt "2" = Int 2.
Proof. split; reflexivity. Qed.

(** C3, evaluated: [save()] writes under the key ["Tour.js"] and
    [getSavedTour] reads the key ["tour"], so what is saved is not what
    is loaded: after [save()], [getSavedTour] gives what it gave before,
    and throws when nothing else has filled the key ["tour"]. *)
Theorem save_is_not_read_back (w : Tour.World) (varName : string) :
  sessionStorage (Tour.page (after Tour.save w)) !! "Tour.js"%string =
    Some (Tour.savedObject (Tour.this w)) /\
  Tour.getSavedTour varName (Tour.page (after Tour.save w)) =
    Tour.getSavedTour varName (Tour.page w) /\
  (sessionStorage (Tour.page w) !! "tour"%string = None ->
   Tour.getSavedTour varName (Tour.page (after Tour.save w)) = Throw TypeError).
Proof.
  destruct w as [o pg]. unfold after, Tour.save, Tour.getSavedTour, bind, gets, modify.
  cbn. split; [apply lookup_insert_eq|].
  rewrite lookup_insert_ne by discriminate.
  split; [reflexivity|]. intros ->. reflexivity.
Qed.

Lemma save_is_not_read_back_witness :
  sessionStorage (Tour.page Example.started) !! "tour"%string = None /\
  Tour.getSavedTour "tour" (Tour.page (after Tour.save Example.started)) =
    Throw TypeError.
Proof.
  split; [reflexivity|].
  apply (save_is_not_read_back Example.started "tour"). reflexivity.
Defined.


(** * Further properties of the code *)

(** ** Spotlight: panels and outcomes *)

(** [move] and [blackout] return normally exactly when the spotlight has
    at least four panels; with fewer they throw a [TypeError]. *)
Theorem move_blackout_ok_iff_four_panels (rect : Rect) (sp : Spotlight.t) :
  (outcome (Spotlight.move rect) sp = Ok tt <->
   (4 <= length (Spotlight.spotlight sp))%nat) /\
  (outcome Spotlight.blackout sp = Ok tt <->
   (4 <= length (Spotlight.spotlight sp))%nat) /\
  ((length (Spotlight.spotlight sp) < 4)%nat ->
   outcome (Spotlight.move rect) sp = Throw TypeError /\
   outcome Spotlight.blackout sp = Throw TypeError).
Proof.
  destruct sp as [pad l].
  destruct l as [|p0 [|p1 [|p2 [|p3 rest]]]]; unfold outcome; cbn;
    repeat split; intros; try discriminate; try lia; reflexivity.
Qed.

Lemma move_blackout_ok_iff_four_panels_witness :
  outcome (Spotlight.move (mkRect 0 0 10 10))
          (Spotlight.mk 5 [newPanel Example.css; newPanel Example.css]) =
    Throw TypeError.
Proof.
  apply (move_blackout_ok_iff_four_panels (mkRect 0 0 10 10)
           (Spotlight.mk 5 [newPanel Example.css; newPanel Example.css])).
  cbn. lia.
Defined.

(** [move], [blackout] and [kill] keep the padding and the number of
    panels, whether they throw or not. *)
Theorem spotlight_methods_keep_panel_count (rect : Rect) (sp : Spotlight.t) :
  same_panels sp (after (Spotlight.move rect) sp) /\
  same_panels sp (after Spotlight.blackout sp) /\
  same_panels sp (Spotlight.kill sp).
Proof.
  split; [apply preserves_move|]. split; [apply preserves_blackout|].
  destruct sp as [pad l]. unfold Spotlight.kill. cbn.
  destruct l; cbn; split; cbn; try reflexivity.
  f_equal. apply length_map.
Qed.

Lemma keeps_removed_refl (sp : Spotlight.t) : keeps_removed sp sp.
Proof. intros H. exact H. Qed.

Lemma keeps_removed_trans (sp1 sp2 sp3 : Spotlight.t) :
  keeps_removed sp1 sp2 -> keeps_removed sp2 sp3 -> keeps_removed sp1 sp3.
Proof. unfold keeps_removed. auto. Qed.

Lemma keeps_removed_panel (i : nat) : preserves keeps_removed (Spotlight.panel i).
Proof.
  intros sp. unfold after, Spotlight.panel.
  destruct (Spotlight.spotlight sp !! i); apply keeps_removed_refl.
Qed.

Lemma keeps_removed_assign (i : nat) (f : Panel -> Panel) :
  (forall p, panel_attached (f p) = panel_attached p) ->
  preserves keeps_removed (Spotlight.assign i f).
Proof.
  intros Hf [pad l]. unfold after, Spotlight.assign, Spotlight.panel, bind, modify. cbn.
  destruct (l !! i) as [p|] eqn:E; cbn; [|apply keeps_removed_refl].
  unfold keeps_removed, all_removed. cbn. intros Hall.
  apply Forall_insert; [exact Hall|].
  rewrite Hf. rewrite Forall_lookup in Hall. exact (Hall i p E).
Qed.

Ltac keep_removed :=
  repeat match goal with
         | |- preserves _ (gets _) => apply preserves_gets, keeps_removed_refl
         | |- preserves _ (Spotlight.panel _) => apply keeps_removed_panel
         | |- preserves _ (Spotlight.assign _ _) =>
             apply keeps_removed_assign; intros ?; reflexivity
         | |- preserves _ (bind _ _) =>
             apply (preserves_bind _ keeps_removed_trans); [| intros ?]
         end.

Lemma keeps_removed_move (rect : Rect) : preserves keeps_removed (Spotlight.move rect).
Proof. unfold Spotlight.move. keep_removed. Qed.

Lemma keeps_removed_blackout : preserves keeps_removed Spotlight.blackout.
Proof. unfold Spotlight.blackout. keep_removed. Qed.

Lemma kill_all_removed (sp : Spotlight.t) : all_removed (Spotlight.kill sp).
Proof.
  destruct sp as [pad l]. unfold all_removed, Spotlight.kill. cbn.
  destruct l as [|p l]; cbn; [constructor|].
  constructor; [reflexivity|]. apply Forall_map. apply Forall_true. reflexivity.
Qed.

(** [kill()] can be called again without effect; after it no panel masks
    any point, and no later [move] or [blackout] brings a panel back. *)
Theorem kill_is_final (sp : Spotlight.t) (rect : Rect) :
  Spotlight.kill (Spotlight.kill sp) = Spotlight.kill sp /\
  (forall q x y, q ∈ Spotlight.spotlight (Spotlight.kill sp) -> ~ covers q x y) /\
  (forall q x y,
     q ∈ Spotlight.spotlight (after (Spotlight.move rect) (Spotlight.kill sp)) ->
     ~ covers q x y) /\
  (forall q x y,
     q ∈ Spotlight.spotlight (after Spotlight.blackout (Spotlight.kill sp)) ->
     ~ covers q x y).
Proof.
  assert (Hnone : forall sp', all_removed sp' ->
            forall q x y, q ∈ Spotlight.spotlight sp' -> ~ covers q x y).
  { intros sp' Hall q x y Hq [Ha _].
    unfold all_removed in Hall. rewrite Forall_forall in Hall.
    rewrite (Hall q Hq) in Ha. discriminate. }
  split; [|split; [|split]].
  - destruct sp as [pad l]. unfold Spotlight.kill. cbn.
    destruct l as [|p l]; cbn; [reflexivity|].
    f_equal. f_equal. rewrite map_map. apply map_ext. reflexivity.
  - apply Hnone, kill_all_removed.
  - apply Hnone. apply keeps_removed_move, kill_all_removed.
  - apply Hnone. apply keeps_removed_blackout, kill_all_removed.
Qed.

Lemma kill_is_final_witness :
  Forall (fun q => ~ covers q 0 0)
    (Spotlight.spotlight
       (after (Spotlight.move (mkRect 100 100 200 50))
          (Spotlight.kill (Spotlight.constructor Example.css (Some 10))))).
Proof.
  apply list.Forall_forall. intros q Hq.
  destruct (kill_is_final (Spotlight.constructor Example.css (Some 10))
              (mkRect 100 100 200 50)) as (_ & _ & Hmove & _).
  exact (Hmove q 0 0 Hq).
Defined.

Lemma panelRect_set_top_height (v : Q) (p : Panel) :
  r_height (panelRect (set_top v p)) = r_height (panelRect p).
Proof. unfold panelRect, set_top. cbn. destruct (panel_attached p); reflexivity. Qed.

Lemma panelRect_moved_width (a b c : Q) (p : Panel) :
  r_width (panelRect (set_height a (set_top b (set_left c p)))) = r_width (panelRect p).
Proof.
  unfold panelRect, set_top, set_left, set_height. cbn.
  destruct (panel_attached p); reflexivity.
Qed.

Lemma panelRect_set_left_width (v : Q) (p : Panel) :
  r_width (panelRect (set_left v p)) = r_width (panelRect p).
Proof. unfold panelRect, set_left. cbn. destruct (panel_attached p); reflexivity. Qed.

(** Where [move] leaves the panels depends on its target alone: it
    overrides an earlier [move] and an earlier [blackout]. *)
Theorem move_overrides_earlier_calls (R1 R2 : Rect) (sp : Spotlight.t) :
  (4 <= length (Spotlight.spotlight sp))%nat ->
  after (Spotlight.move R2) (after (Spotlight.move R1) sp) =
    after (Spotlight.move R2) sp /\
  after (Spotlight.move R2) (after Spotlight.blackout sp) =
    after (Spotlight.move R2) sp.
Proof.
  intros Hlen. destruct sp as [pad l].
  destruct l as [|p0 [|p1 [|p2 [|p3 rest]]]]; cbn in Hlen; try lia.
  unfold after. rewrite !move_run, blackout_run. cbn [snd]. rewrite !move_run. cbn [snd].
  rewrite !panelRect_set_top_height, panelRect_moved_width, panelRect_set_left_width.
  split; reflexivity.
Qed.

Lemma move_overrides_earlier_calls_witness :
  let sp := Spotlight.constructor Example.css (Some 10) in
  after (Spotlight.move (mkRect 5 5 20 20)) (after (Spotlight.move (mkRect 100 100 200 50)) sp) =
    after (Spotlight.move (mkRect 5 5 20 20)) sp.
Proof.
  intros sp.
  apply (move_overrides_earlier_calls (mkRect 100 100 200 50) (mkRect 5 5 20 20) sp).
  cbn. lia.
Defined.

(** ** Placeholders: which occurrence is replaced *)

Lemma str_cons_app (c : ascii) (a b : string) :
  String c a +:+ b = String c (a +:+ b).
Proof. reflexivity. Qed.

Lemma str_app_assoc (a b c : string) : (a +:+ b) +:+ c = a +:+ (b +:+ c).
Proof.
  induction a as [|x a IH]; [reflexivity|].
  rewrite !str_cons_app. f_equal. exact IH.
Qed.

Lemma str_app_nil_r (a : string) : a +:+ EmptyString = a.
Proof.
  induction a as [|x a IH]; [reflexivity|].
  rewrite str_cons_app. f_equal. exact IH.
Qed.

Lemma prefix_app (pat a : string) : String.prefix pat (pat +:+ a) = true.
Proof.
  induction pat as [|c pat IH]; [destruct a; reflexivity|].
  rewrite str_cons_app. cbn. destruct (ascii_dec c c); [exact IH | congruence].
Qed.

(** The occurrence [split_first] finds is the leftmost one. *)
Lemma split_first_leftmost (pat s before after : string) :
  split_first pat s = Some (before, after) ->
  forall b' a', s = b' +:+ pat +:+ a' ->
  (String.length before <= String.length b')%nat.
Proof.
  revert before. induction s as [|c s IH]; intros before H b' a' Hs;
    rewrite split_first_eq in H;
    destruct (String.prefix pat _) eqn:E;
    try (injection H as <- <-; cbn; lia); try discriminate.
  destruct (split_first pat s) as [[b a]|] eqn:Es; [|discriminate].
  injection H as <- <-.
  destruct b' as [|c' b'].
  - change (String c s = pat +:+ a') in Hs. rewrite Hs, prefix_app in E. discriminate.
  - rewrite str_cons_app in Hs. injection Hs as _ Hs.
    cbn. apply le_n_S. exact (IH b eq_refl b' a' Hs).
Qed.

Lemma split_first_none (pat s : string) :
  split_first pat s = None -> forall b a, s ≠ b +:+ pat +:+ a.
Proof.
  induction s as [|c s IH]; intros H b a Hs;
    rewrite split_first_eq in H;
    destruct (String.prefix pat _) eqn:E; try discriminate.
  - destruct b as [|c' b]; [|rewrite str_cons_app in Hs; discriminate].
    change (EmptyString = pat +:+ a) in Hs. rewrite Hs, prefix_app in E. discriminate.
  - destruct (split_first pat s) as [[b0 a0]|] eqn:Es; [discriminate|].
    destruct b as [|c' b].
    + change (String c s = pat +:+ a) in Hs. rewrite Hs, prefix_app in E. discriminate.
    + rewrite str_cons_app in Hs. injection Hs as _ Hs.
      exact (IH eq_refl b a Hs).
Qed.

(** [text.replace(pattern, value)], for a value without dollar sign:
    a text without occurrence of the pattern is returned as it is;
    otherwise the leftmost occurrence, and only that one, is replaced by
    the value. *)
Theorem replace_leftmost_occurrence (pat v s : string) :
  (forall c, c ∈ list_ascii_of_string v -> c ≠ "$"%char) ->
  ((forall b a, s ≠ b +:+ pat +:+ a) /\ replace pat v s = s) \/
  (exists b a,
     s = b +:+ pat +:+ a /\
     replace pat v s = b +:+ v +:+ a /\
     forall b' a', s = b' +:+ pat +:+ a' ->
       (String.length b <= String.length b')%nat).
Proof.
  intros Hv. destruct (split_first pat s) as [[b a]|] eqn:E.
  - right. exists b, a.
    destruct (replace_one_occurrence pat v s b a E Hv) as [Hs Hr].
    split; [exact Hs|]. split; [exact Hr|].
    apply (split_first_leftmost pat s b a E).
  - left. split; [apply split_first_none, E | apply replace_no_occurrence, E].
Qed.

Lemma replace_leftmost_occurrence_witness :
  exists b a,
    "x PLACEHOLDER-n y PLACEHOLDER-n"%string = b +:+ "PLACEHOLDER-n" +:+ a /\
    replace "PLACEHOLDER-n" "Sam" "x PLACEHOLDER-n y PLACEHOLDER-n" = b +:+ "Sam" +:+ a /\
    String.length b = 2%nat.
Proof.
  destruct (replace_leftmost_occurrence "PLACEHOLDER-n" "Sam"
              "x PLACEHOLDER-n y PLACEHOLDER-n") as [[Hno _] | (b & a & Hs & Hr & Hleft)].
  - intros c Hc Heq. subst c. vm_compute in Hc.
    repeat (apply elem_of_cons in Hc as [Hc | Hc]; [discriminate Hc|]).
    by apply elem_of_nil in Hc.
  - exfalso. exact (Hno "x " " y PLACEHOLDER-n" eq_refl).
  - exists b, a. split; [exact Hs|]. split; [exact Hr|].
    pose proof (Hleft "x " " y PLACEHOLDER-n" eq_refl) as Hle. cbn in Hle.
    destruct b as [|c0 [|c1 [|c2 b]]]; cbn in Hle; try lia; try reflexivity;
      vm_compute in Hs; discriminate Hs.
Defined.

(** A variable whose value is [$&] puts the placeholder back: the text
    is unchanged. *)
Lemma replace_with_match (pat s : string) : replace pat "$&" s = s.
Proof.
  unfold replace. destruct (split_first pat s) as [[b a]|] eqn:E; [|reflexivity].
  cbn. rewrite str_app_nil_r. symmetry. apply split_first_spec, E.
Qed.

(** A text in which ["PLACEHOLDER-"] does not occur is rendered as it
    is, whatever the variables. *)
Theorem formatText_without_placeholder (variables : list (string * string)) (text : string) :
  (forall b a, text ≠ b +:+ "PLACEHOLDER-" +:+ a) ->
  Tour.formatText variables text = text.
Proof.
  intros Hno. unfold Tour.formatText.
  induction variables as [|[k v] vars IH]; [reflexivity|].
  cbn [fold_left]. cbn [fst snd].
  rewrite replace_no_occurrence; [exact IH|].
  destruct (split_first ("PLACEHOLDER-" +:+ k) text) as [[b a]|] eqn:E; [|reflexivity].
  exfalso. apply split_first_spec in E.
  rewrite str_app_assoc in E. exact (Hno b (k +:+ a) E).
Qed.

Lemma formatText_without_placeholder_witness :
  Tour.formatText [("n", "Sam")]%string "Bye" = "Bye"%string.
Proof.
  apply formatText_without_placeholder.
  apply split_first_none. reflexivity.
Defined.

(** ** The step index through save and load *)









(** [save()] leaves the tour as it is and touches one key of the
    storage, ["Tour.js"]: every other key keeps its entry, and a second
    [save()] changes nothing more. *)
Theorem save_writes_one_key (w : Tour.World) :
  outcome Tour.save w = Ok tt /\
  Tour.this (after Tour.save w) = Tour.this w /\
  (forall k, k ≠ "Tour.js"%string ->
     sessionStorage (Tour.page (after Tour.save w)) !! k =
     sessionStorage (Tour.page w) !! k) /\
  console (Tour.page (after Tour.save w)) = console (Tour.page w) /\
  onresize (Tour.page (after Tour.save w)) = onresize (Tour.page w) /\
  onscroll (Tour.page (after Tour.save w)) = onscroll (Tour.page w) /\
  scrolls (Tour.page (after Tour.save w)) = scrolls (Tour.page w) /\
  after Tour.save (after Tour.save w) = after Tour.save w.
Proof.
  destruct w as [o pg]. unfold outcome, after, Tour.save, bind, gets, modify. cbn.
  repeat split.
  - intros k Hk. apply lookup_insert_ne. congruence.
  - unfold Tour.on_page, Tour.set_sessionStorage. cbn. rewrite insert_insert_eq. reflexivity.
Qed.

Lemma save_writes_one_key_witness :
  sessionStorage (Tour.page (after Tour.save Example.started)) !! "tour"%string =
  sessionStorage (Tour.page Example.started) !! "tour"%string.
Proof.
  apply (save_writes_one_key Example.started). discriminate.
Defined.

(** Dollar patterns in a variable's value are interpreted by [replace]:
    [$$] inserts a dollar sign, [$&] puts the placeholder back, [$`]
    inserts the text before the placeholder and [$'] the text after
    it. *)
Theorem replace_dollar_patterns (pat s before after : string) :
  split_first pat s = Some (before, after) ->
  replace pat "$$" s = before +:+ "$" +:+ after /\
  replace pat "$&" s = s /\
  replace pat "$`" s = before +:+ before +:+ after /\
  replace pat "$'" s = before +:+ after +:+ after.
Proof.
  intros H. split; [|split; [apply replace_with_match|split]];
    unfold replace; rewrite H; cbn; rewrite ?str_app_nil_r; reflexivity.
Qed.

Lemma replace_dollar_patterns_witness :
  replace "PLACEHOLDER-n" "$&" "Hi PLACEHOLDER-n" = "Hi PLACEHOLDER-n"%string /\
  replace "PLACEHOLDER-n" "$$" "Hi PLACEHOLDER-n" = "Hi $"%string.
Proof.
  destruct (replace_dollar_patterns "PLACEHOLDER-n" "Hi PLACEHOLDER-n" "Hi " "" eq_refl)
    as (H1 & H2 & _).
  split; [exact H2 | exact H1].
Defined.


(** ** Renders that throw *)

(** A render with the index outside the steps (negative, past the end,
    or [NaN]) throws before it changes anything. *)
Theorem makeStep_out_of_range (L : Layout) (w : Tour.World) :
  index (Tour.steps (Tour.this w)) (Tour.step (Tour.this w)) = None ->
  Tour.makeStep L w = (Throw TypeError, w).
Proof.
  intros H. unfold Tour.makeStep, bind, Tour.currentStep. rewrite H. reflexivity.
Qed.

Lemma makeStep_out_of_range_witness :
  Tour.makeStep Example.layout Example.finished = (Throw TypeError, Example.finished).
Proof. apply makeStep_out_of_range. reflexivity. Defined.

(** A render of a step whose target is not in the document throws after
    the popup got the step's content: the popup keeps its place, the
    current element is [null], and nothing is observed, scrolled or
    moved. *)
Theorem makeStep_missing_target (L : Layout) (w : Tour.World) (st : Step)
    (e : string) (p : Popup) :
  index (Tour.steps (Tour.this w)) (Tour.step (Tour.this w)) = Some st ->
  step_id st = Some e -> truthy (Some e) = true ->
  getElementById L e = false ->
  Tour.popupElement (Tour.this w) = Some p ->
  Tour.makeStep L w =
  (Throw TypeError,
   Tour.on_this (fun o =>
     Tour.set_currentElement None
       (Tour.set_popupElement
          (Some (mkPopup (Some (Tour.popupHtml (Tour.this w) st))
                         (popup_left p) (popup_top p) (popup_attached p))) o)) w).
Proof.
  intros Hidx Hid Ht Hel Hp.
  destruct w as [o pg]. destruct o. cbn in Hidx, Hp. subst.
  unfold Tour.makeStep, Tour.updatePopup, Tour.currentStep,
    Tour.toggleResizeObserver, bind, gets, modify.
  cbn. rewrite Hidx. cbn. rewrite Hidx. cbn. rewrite Hid, Ht. cbn. rewrite Hel. cbn.
  reflexivity.
Qed.

Lemma makeStep_missing_target_witness :
  let L := mkLayout (fun _ => false) (offsetTop Example.layout) 2000
             (elementRect Example.layout) (bodyRect Example.layout)
             (popupRect Example.layout) 1000 800 (scrollOffset Example.layout)
             Example.css in
  outcome (Tour.makeStep L) Example.started = Throw TypeError.
Proof.
  intros L. unfold outcome.
  erewrite (makeStep_missing_target L Example.started _ "a");
    [reflexivity | reflexivity | reflexivity | reflexivity | reflexivity | reflexivity].
Defined.



(** ** previous and next *)

Lemma previous_run (L : Layout) (w : Tour.World) :
  Tour.previous L w = Tour.makeStep L (previous_world w).
Proof.
  unfold Tour.previous, previous_world, bind, gets, modify. destruct w as [o pg]. cbn.
  destruct (Tour.currentElement o) as [e|] eqn:E; cbn; [|reflexivity].
  unfold Tour.toggleResizeObserver, bind, gets, modify. cbn. rewrite E. reflexivity.
Qed.

Lemma endTour_keeps_steps (L : Layout) (w : Tour.World) :
  Tour.steps (Tour.this (after (Tour.endTour L) w)) = Tour.steps (Tour.this w) /\
  Tour.step (Tour.this (after (Tour.endTour L) w)) = Tour.step (Tour.this w).
Proof.
  destruct w as [o pg]. unfold after, Tour.endTour, bind, gets, modify. cbn.
  destruct (Tour.popupElement o) as [p|]; cbn; [|split; reflexivity].
  destruct (Options.spotlight (Tour.options o)); cbn; [|split; reflexivity].
  unfold Tour.withSpotlight. cbn.
  destruct (Tour.spotlight o); cbn; split; reflexivity.
Qed.

Lemma next_world_fields (w : Tour.World) :
  Tour.steps (Tour.this (next_world w)) = Tour.steps (Tour.this w) /\
  Tour.step (Tour.this (next_world w)) = incr (Tour.step (Tour.this w)) /\
  Tour.currentState (Tour.this (next_world w)) = Tour.currentState (Tour.this w) /\
  Tour.popupElement (Tour.this (next_world w)) = Tour.popupElement (Tour.this w) /\
  Tour.spotlight (Tour.this (next_world w)) = Tour.spotlight (Tour.this w) /\
  Tour.options (Tour.this (next_world w)) = Tour.options (Tour.this w) /\
  Tour.currentElement (Tour.this (next_world w)) = Tour.currentElement (Tour.this w) /\
  Tour.page (next_world w) = Tour.page w.
Proof.
  destruct w as [o pg]. unfold next_world. cbn.
  destruct (Tour.currentElement o) eqn:E; cbn; rewrite ?E; repeat split.
Qed.

Lemma previous_world_fields (w : Tour.World) :
  Tour.steps (Tour.this (previous_world w)) = Tour.steps (Tour.this w) /\
  Tour.step (Tour.this (previous_world w)) = decr (Tour.step (Tour.this w)) /\
  Tour.currentState (Tour.this (previous_world w)) = Tour.currentState (Tour.this w) /\
  Tour.popupElement (Tour.this (previous_world w)) = Tour.popupElement (Tour.this w) /\
  Tour.spotlight (Tour.this (previous_world w)) = Tour.spotlight (Tour.this w) /\
  Tour.options (Tour.this (previous_world w)) = Tour.options (Tour.this w) /\
  Tour.currentElement (Tour.this (previous_world w)) = Tour.currentElement (Tour.this w) /\
  Tour.page (previous_world w) = Tour.page w.
Proof.
  destruct w as [o pg]. unfold previous_world. cbn.
  destruct (Tour.currentElement o) eqn:E; cbn; rewrite ?E; repeat split.
Qed.

Lemma next_index (L : Layout) (w : Tour.World) :
  Tour.steps (Tour.this (after (Tour.next L) w)) = Tour.steps (Tour.this w) /\
  Tour.step (Tour.this (after (Tour.next L) w)) = incr (Tour.step (Tour.this w)).
Proof.
  destruct (next_world_fields w) as (Hss & Hs & _).
  unfold after. rewrite next_run.
  destruct (num_lt_length _ _).
  - destruct (preserves_makeStep L (next_world w)) as (_ & Hss' & Hs' & _).
    unfold after in *. rewrite Hss', Hs'. split; assumption.
  - destruct (endTour_keeps_steps L (next_world w)) as (Hss' & Hs').
    unfold after in *. rewrite Hss', Hs'. split; assumption.
Qed.


(** [previous()] has no lower bound: at index 0 it moves the index to -1
    and throws, the render finding no step; the state, the popup and the
    page stay as they were.  A [next()] then renders step 0 again. *)
Theorem previous_at_first_step (L : Layout) (w : Tour.World) :
  Tour.step (Tour.this w) = Int 0 ->
  Tour.previous L w = (Throw TypeError, previous_world w) /\
  Tour.step (Tour.this (previous_world w)) = Int (-1) /\
  Tour.currentState (Tour.this (previous_world w)) = Tour.currentState (Tour.this w) /\
  Tour.popupElement (Tour.this (previous_world w)) = Tour.popupElement (Tour.this w) /\
  Tour.page (previous_world w) = Tour.page w /\
  ((0 < length (Tour.steps (Tour.this w)))%nat ->
   Tour.next L (previous_world w) = Tour.makeStep L (next_world (previous_world w)) /\
   Tour.step (Tour.this (next_world (previous_world w))) = Int 0).
Proof.
  intros H0.
  destruct (previous_world_fields w) as (Hss & Hs & Hst & Hp & _ & _ & _ & Hpg).
  rewrite H0 in Hs. change (decr (Int 0)) with (Int (-1)) in Hs.
  split.
  { rewrite previous_run. unfold Tour.makeStep, bind, Tour.currentStep.
    rewrite Hs. reflexivity. }
  repeat split; try assumption.
  - rewrite next_run, Hs, Hss. change (incr (Int (-1))) with (Int 0).
    unfold num_lt_length.
    destruct (Z.ltb_spec 0 (Z.of_nat (length (Tour.steps (Tour.this w))))); [reflexivity | lia].
  - destruct (next_world_fields (previous_world w)) as (_ & Hs' & _).
    rewrite Hs', Hs. reflexivity.
Qed.

Lemma previous_at_first_step_witness :
  outcome (Tour.previous Example.layout) Example.started = Throw TypeError /\
  Tour.step (Tour.this (after (Tour.previous Example.layout) Example.started)) = Int (-1).
Proof.
  destruct (previous_at_first_step Example.layout Example.started eq_refl)
    as (Hrun & Hs & _).
  unfold outcome, after. rewrite Hrun. split; [reflexivity | exact Hs].
Defined.


(** The popup's button is labelled as the end button exactly on the
    step from which [next()] ends the tour: on a step in range,
    [isLastStep()] holds iff the next [next()] runs [endTour], and then
    the button shows the end label instead of the next label. *)
Theorem isLastStep_iff_next_ends (L : Layout) (w : Tour.World) (k : Z) (st : Step) :
  Tour.step (Tour.this w) = Int k ->
  (0 <= k < Z.of_nat (length (Tour.steps (Tour.this w))))%Z ->
  let labels := Tour.buttonLabels (Options.language (Tour.options (Tour.this w))) in
  (Tour.isLastStep (Tour.this w) = true ->
   Tour.next L w = Tour.endTour L (next_world w) /\
   pc_next (Tour.popupHtml (Tour.this w) st) = labels.2) /\
  (Tour.isLastStep (Tour.this w) = false ->
   Tour.next L w = Tour.makeStep L (next_world w) /\
   pc_next (Tour.popupHtml (Tour.this w) st) = labels.1.2) /\
  (Tour.isLastStep (Tour.this w) = true <->
   k = (Z.of_nat (length (Tour.steps (Tour.this w))) - 1)%Z).
Proof.
  intros Hk Hrange labels.
  assert (Hlast : Tour.isLastStep (Tour.this w) =
                  (k =? Z.of_nat (length (Tour.steps (Tour.this w))) - 1)%Z).
  { unfold Tour.isLastStep. rewrite Hk. reflexivity. }
  assert (Hlabel : pc_next (Tour.popupHtml (Tour.this w) st) =
                   if Tour.isLastStep (Tour.this w) then labels.2 else labels.1.2).
  { unfold Tour.popupHtml. fold labels. destruct labels as [[a b] c]. reflexivity. }
  rewrite Hlabel, next_run, Hk. unfold incr, num_lt_length.
  rewrite Hlast.
  destruct (Z.eqb_spec k (Z.of_nat (length (Tour.steps (Tour.this w))) - 1)) as [E | E].
  - destruct (Z.ltb_spec (k + 1) (Z.of_nat (length (Tour.steps (Tour.this w))))); [lia|].
    repeat split; try discriminate; auto.
  - destruct (Z.ltb_spec (k + 1) (Z.of_nat (length (Tour.steps (Tour.this w))))); [|lia].
    repeat split; try discriminate; auto.
Qed.

Lemma isLastStep_iff_next_ends_witness :
  Tour.isLastStep (Tour.this Example.started) = false /\
  Tour.next Example.layout Example.started =
    Tour.makeStep Example.layout (next_world Example.started).
Proof.
  destruct (isLastStep_iff_next_ends Example.layout Example.started 0
              (mkStep None "Bye" None) eq_refl
              ltac:(vm_compute; split; [discriminate | reflexivity])) as (_ & Hmid & _).
  split; [reflexivity|]. apply Hmid. reflexivity.
Defined.

(** Once [next()] has gone past the last step it ends the tour on every
    later call as well: the tour is Finished after each of them, and stays
    so.  The same holds from a [NaN] index. *)
Theorem next_past_the_end_stays_finished (L : Layout) (w : Tour.World) (n : nat) :
  num_lt_length (incr (Tour.step (Tour.this w))) (length (Tour.steps (Tour.this w))) = false ->
  (1 <= n)%nat ->
  Tour.currentState (Tour.this (Tour.next_times L n w)) = 2%Z /\
  Tour.steps (Tour.this (Tour.next_times L n w)) = Tour.steps (Tour.this w).
Proof.
  intros Hend Hn.
  assert (Hinv : forall m,
            num_lt_length (incr (Tour.step (Tour.this (Tour.next_times L m w))))
                          (length (Tour.steps (Tour.this w))) = false /\
            Tour.steps (Tour.this (Tour.next_times L m w)) = Tour.steps (Tour.this w)).
  { induction m as [|m [IHlt IHss]]; [split; [exact Hend | reflexivity]|].
    cbn [Tour.next_times].
    destruct (next_index L (Tour.next_times L m w)) as (Hss & Hs).
    rewrite Hss, Hs, IHss. split; [|reflexivity].
    destruct (Tour.step (Tour.this (Tour.next_times L m w))) as [z|]; cbn in *; [|reflexivity].
    apply Z.ltb_ge. apply Z.ltb_ge in IHlt. lia. }
  destruct n as [|n]; [lia|]. cbn [Tour.next_times].
  destruct (Hinv n) as (Hlt & Hss).
  destruct (next_index L (Tour.next_times L n w)) as (Hss' & _).
  split; [|rewrite Hss', Hss; reflexivity].
  unfold after. rewrite next_run, Hss, Hlt.
  apply (endTour_run L (next_world (Tour.next_times L n w))).
Qed.

Lemma next_past_the_end_stays_finished_witness :
  Tour.currentState (Tour.this (Tour.next_times Example.layout 3 Example.finished)) = 2%Z.
Proof.
  apply (next_past_the_end_stays_finished Example.layout Example.finished 3);
    [reflexivity | lia].
Defined.

Lemma kill_kill (sp : Spotlight.t) : Spotlight.kill (Spotlight.kill sp) = Spotlight.kill sp.
Proof.
  destruct sp as [pad l]. unfold Spotlight.kill. cbn.
  destruct l as [|p l]; cbn; [reflexivity|].
  f_equal. f_equal. rewrite map_map. apply map_ext. reflexivity.
Qed.

(** [endTour()] can be repeated: a second call leaves everything as the
    first one did.  When it returns normally the popup is out of the
    document, the handlers are the empty ones and, if the spotlight option
    is on, every panel is out of the document. *)
Theorem endTour_twice (L : Layout) (w : Tour.World) :
  let w' := after (Tour.endTour L) w in
  after (Tour.endTour L) w' = w' /\
  outcome (Tour.endTour L) w' = outcome (Tour.endTour L) w /\
  (outcome (Tour.endTour L) w = Ok tt ->
   (exists p, Tour.popupElement (Tour.this w') = Some p /\ popup_attached p = false) /\
   onresize (Tour.page w') = IgnoreResize /\
   onscroll (Tour.page w') = IgnoreScroll /\
   (Options.spotlight (Tour.options (Tour.this w)) = true ->
    exists sp, Tour.spotlight (Tour.this w') = Some sp /\ all_removed sp)).
Proof.
  destruct w as [o pg]. destruct o, pg. destruct options as [ds spo lang sm].
  unfold after, outcome, Tour.endTour, Tour.withSpotlight, bind, gets, modify. cbn.
  destruct popupElement as [p|]; cbn;
    [|repeat split; try reflexivity; discriminate].
  destruct spo; cbn.
  - destruct spotlight as [sp|]; cbn;
      [|repeat split; try reflexivity; discriminate].
    rewrite kill_kill. repeat split; eauto.
    eexists. split; [reflexivity | apply kill_all_removed].
  - repeat split; eauto. discriminate.
Qed.

Lemma endTour_twice_witness :
  let w := next_world (Tour.next_times Example.layout 1 Example.started) in
  exists sp,
    Tour.spotlight (Tour.this (after (Tour.endTour Example.layout) w)) = Some sp /\
    all_removed sp.
Proof.
  intros w.
  destruct (endTour_twice Example.layout w) as (_ & _ & Hclean).
  destruct (Hclean ltac:(vm_compute; reflexivity)) as (_ & _ & _ & Hsp).
  exact (Hsp ltac:(vm_compute; reflexivity)).
Defined.


(** ** A tour without popup *)




(** ** Where the popup lands *)



(** In centred mode no absolute value is taken: the popup lies within
    the viewport's width exactly when it is not wider than the viewport,
    and within its height exactly when it is not higher; a larger popup
    gets a negative coordinate and sticks out by the same amount on both
    sides. *)
Theorem centerPos_within_viewport (W H : Q) (P : Rect) :
  let pos := centerPos W H P in
  (0 <= pos_x pos /\ pos_x pos + r_width P <= W <-> r_width P <= W) /\
  (0 <= pos_y pos /\ pos_y pos + r_height P <= H <-> r_height P <= H) /\
  W - (pos_x pos + r_width P) == pos_x pos /\
  H - (pos_y pos + r_height P) == pos_y pos.
Proof.
  cbv zeta. unfold centerPos. cbn [pos_x pos_y].
  assert (Ex : W / 2 - r_width P / 2 == (W - r_width P) * (1 # 2)) by field.
  assert (Ey : H / 2 - r_height P / 2 == (H - r_height P) * (1 # 2)) by field.
  split; [split; [intros [? ?]; lra | intros ?; split; lra]|].
  split; [split; [intros [? ?]; lra | intros ?; split; lra]|].
  split; field.
Qed.

Lemma centerPos_within_viewport_witness :
  0 <= pos_x (centerPos 1000 800 (mkRect 0 0 300 120)).
Proof.
  destruct (centerPos_within_viewport 1000 800 (mkRect 0 0 300 120)) as (Hx & _).
  apply Hx. unfold Qle. cbn. lia.
Defined.


(** ** The resize observer *)

Lemma hoare_bind {S A B} (P Q R : S -> Prop) (m : M S A) (k : A -> M S B) :
  hoare P m Q -> (forall s, Q s -> R s) -> (forall a, hoare Q (k a) R) ->
  hoare P (bind m k) R.
Proof.
  intros Hm HQR Hk s Hs. specialize (Hm s Hs). unfold after, bind in *.
  destruct (m s) as [[a | e] s']; cbn in *; [apply Hk, Hm | apply HQR, Hm].
Qed.

Lemma hoare_weaken {S A} (P Q Q' : S -> Prop) (m : M S A) :
  hoare P m Q -> (forall s, Q s -> Q' s) -> hoare P m Q'.
Proof. intros Hm HQ s Hs. apply HQ, Hm, Hs. Qed.

Lemma same_target_refl (w : Tour.World) : same_target w w.
Proof. split; reflexivity. Qed.

Lemma same_target_trans (w1 w2 w3 : Tour.World) :
  same_target w1 w2 -> same_target w2 w3 -> same_target w1 w3.
Proof. intros [? ?] [? ?]. split; congruence. Qed.

Lemma same_target_withSpotlight (m : M Spotlight.t unit) :
  preserves same_target (Tour.withSpotlight m).
Proof.
  intros [o pg]. unfold after, Tour.withSpotlight. cbn.
  destruct (Tour.spotlight o) as [sp|]; [|apply same_target_refl].
  destruct (m sp) as [r sp']. destruct o. split; reflexivity.
Qed.

Lemma same_target_currentStep : preserves same_target Tour.currentStep.
Proof.
  intros w. unfold after, Tour.currentStep.
  destruct (index _ _); apply same_target_refl.
Qed.

Ltac same_target_step :=
  let o := fresh "o" in
  let pg := fresh "pg" in
  intros [o pg]; destruct o, pg; split; reflexivity.

Ltac keep_target :=
  repeat match goal with
         | |- preserves _ (ret _) => apply preserves_ret, same_target_refl
         | |- preserves _ (throw _) => apply preserves_throw, same_target_refl
         | |- preserves _ (gets _) => apply preserves_gets, same_target_refl
         | |- preserves _ Tour.currentStep => apply same_target_currentStep
         | |- preserves _ (Tour.withSpotlight _) => apply same_target_withSpotlight
         | |- preserves _ (when _ _) => apply (preserves_when _ same_target_refl)
         | |- preserves _ (bind _ _) =>
             apply (preserves_bind _ same_target_trans); [| intros ?]
         | |- preserves _ (modify _) => apply preserves_modify; same_target_step
         | |- preserves _ (if ?b then _ else _) => destruct b
         | |- preserves _ (match ?x with _ => _ end) => destruct x
         end.

Lemma same_target_scrollIntoView (e : string) (b : bool) :
  preserves same_target (Tour.scrollIntoView e b).
Proof. unfold Tour.scrollIntoView. keep_target. Qed.

Lemma same_target_toggleScroll (L : Layout) (b : bool) :
  preserves same_target (Tour.toggleScroll L b).
Proof. unfold Tour.toggleScroll. keep_target. Qed.

Lemma same_target_updatePopup : preserves same_target Tour.updatePopup.
Proof. unfold Tour.updatePopup. keep_target. Qed.

Lemma same_target_movePopup (c : Pos) : preserves same_target (Tour.movePopup c).
Proof. unfold Tour.movePopup. keep_target. Qed.

Lemma same_target_getCenterPos (L : Layout) : preserves same_target (Tour.getCenterPos L).
Proof. unfold Tour.getCenterPos. keep_target. Qed.

Lemma same_target_getPopupPos (L : Layout) : preserves same_target (Tour.getPopupPos L).
Proof. unfold Tour.getPopupPos. keep_target; apply same_target_scrollIntoView. Qed.

Lemma same_target_endTour (L : Layout) : preserves same_target (Tour.endTour L).
Proof.
  unfold Tour.endTour, Tour.setWindowResizeEvent.
  keep_target; apply same_target_toggleScroll.
Qed.

Lemma observes_same_target (w w' : Tour.World) :
  observes_target w -> same_target w w' -> observes_target w'.
Proof. intros H [Hc Ho] x Hx. rewrite Hc. apply H. rewrite <- Ho. exact Hx. Qed.

Lemma nothing_observed_same_target (w w' : Tour.World) :
  Tour.observed (Tour.this w) = [] -> same_target w w' ->
  Tour.observed (Tour.this w') = [].
Proof. intros H [_ Ho]. rewrite Ho. exact H. Qed.

Lemma nothing_observed_observes (w : Tour.World) :
  Tour.observed (Tour.this w) = [] -> observes_target w.
Proof. intros H x Hx. rewrite H in Hx. by apply elem_of_nil in Hx. Qed.

Lemma hoare_same_target {A} (P : Tour.World -> Prop) (m : M Tour.World A) :
  (forall w w', P w -> same_target w w' -> P w') ->
  preserves same_target m -> hoare P m P.
Proof. intros HP Hm w Hw. exact (HP w _ Hw (Hm w)). Qed.

(** A render that starts with nothing observed ends with at most its
    target observed. *)
Lemma makeStep_observes (L : Layout) :
  hoare (fun w => Tour.observed (Tour.this w) = []) (Tour.makeStep L) observes_target.
Proof.
  set (P0 := fun w : Tour.World => Tour.observed (Tour.this w) = []).
  assert (HP0 : forall A (m : M Tour.World A), preserves same_target m -> hoare P0 m P0).
  { intros A m. apply hoare_same_target. exact nothing_observed_same_target. }
  assert (HI : forall A (m : M Tour.World A),
            preserves same_target m -> hoare observes_target m observes_target).
  { intros A m. apply hoare_same_target. exact observes_same_target. }
  unfold Tour.makeStep.
  apply (hoare_bind P0 P0); [apply HP0, same_target_currentStep
                            | exact nothing_observed_observes |].
  intros st.
  apply (hoare_bind P0 P0); [apply HP0, same_target_updatePopup
                            | exact nothing_observed_observes |].
  intros _.
  apply (hoare_bind P0 observes_target); [| auto |].
  - destruct (truthy (step_id st)).
    + apply (hoare_bind P0 P0); [| exact nothing_observed_observes |].
      { intros [o pg] H. destruct o. exact H. }
      intros _.
      apply (hoare_bind P0 observes_target); [| auto |].
      * intros [o pg] H. destruct o. unfold P0 in H. cbn in H. subst.
        unfold after, Tour.toggleResizeObserver, bind, gets, modify. cbn.
        destruct currentElement as [e|]; cbn.
        -- intros x Hx. cbn in *. apply list_elem_of_singleton in Hx. subst. reflexivity.
        -- intros x Hx. cbn in Hx. by apply elem_of_nil in Hx.
      * intros _. apply HI, same_target_getPopupPos.
    + apply (hoare_bind P0 P0); [| exact nothing_observed_observes |].
      { intros [o pg] H. destruct o. exact H. }
      intros _. eapply hoare_weaken;
        [apply HP0, same_target_getCenterPos | exact nothing_observed_observes].
  - intros c. apply HI. keep_target;
      first [ apply same_target_movePopup | apply same_target_toggleScroll ].
Qed.

Lemma next_world_nothing_observed (w : Tour.World) :
  observes_target w -> Tour.observed (Tour.this (next_world w)) = [].
Proof.
  intros H. destruct w as [o pg]. destruct o. unfold observes_target, next_world in *.
  cbn in *. destruct currentElement as [e|]; cbn.
  - induction observed as [|x l IH]; [reflexivity|].
    rewrite filter_cons. destruct (decide (x ≠ e)) as [Hne | _].
    + exfalso. apply Hne. specialize (H x ltac:(left)). congruence.
    + apply IH. intros y Hy. apply H. right. exact Hy.
  - destruct observed as [|x l]; [reflexivity|].
    specialize (H x ltac:(left)). discriminate.
Qed.

Lemma previous_world_nothing_observed (w : Tour.World) :
  observes_target w -> Tour.observed (Tour.this (previous_world w)) = [].
Proof.
  intros H. destruct w as [o pg]. destruct o. unfold observes_target, previous_world in *.
  cbn in *. destruct currentElement as [e|]; cbn.
  - induction observed as [|x l IH]; [reflexivity|].
    rewrite filter_cons. destruct (decide (x ≠ e)) as [Hne | _].
    + exfalso. apply Hne. specialize (H x ltac:(left)). congruence.
    + apply IH. intros y Hy. apply H. right. exact Hy.
  - destruct observed as [|x l]; [reflexivity|].
    specialize (H x ltac:(left)). discriminate.
Qed.

Lemma next_observes (L : Layout) (w : Tour.World) :
  observes_target w -> observes_target (after (Tour.next L) w).
Proof.
  intros H. apply next_world_nothing_observed in H.
  unfold after. rewrite next_run. destruct (num_lt_length _ _).
  - apply (makeStep_observes L _ H).
  - apply nothing_observed_observes.
    exact (nothing_observed_same_target _ _ H (same_target_endTour L _)).
Qed.

Lemma start_observes (L : Layout) (w : Tour.World) :
  Tour.observed (Tour.this w) = [] -> observes_target (after (Tour.start L) w).
Proof.
  intros H. destruct (Z.eq_dec (Tour.currentState (Tour.this w)) 1%Z) as [E | E].
  - unfold after. rewrite start_warns by exact E. cbn.
    apply nothing_observed_observes. exact H.
  - unfold after. rewrite start_run by exact E.
    apply (makeStep_observes L). destruct w as [[] ?]. unfold start_world. cbn in *.
    destruct (Options.spotlight options); exact H.
Qed.

(** The resize observer follows the target: if it observes nothing but
    the current element, so it does after [next()] and after
    [previous()], whether they return or throw; and from a state where
    nothing is observed, so it does after [start()] and after a render. *)
Theorem observer_follows_target (L : Layout) (w : Tour.World) :
  (observes_target w ->
   observes_target (after (Tour.next L) w) /\
   observes_target (after (Tour.previous L) w)) /\
  (Tour.observed (Tour.this w) = [] ->
   observes_target (after (Tour.start L) w) /\
   observes_target (after (Tour.makeStep L) w)).
Proof.
  split.
  - intros H. split; [apply next_observes, H|].
    unfold after. rewrite previous_run.
    apply (makeStep_observes L), previous_world_nothing_observed, H.
  - intros H. split; [apply start_observes, H | apply (makeStep_observes L _ H)].
Qed.

Lemma observer_follows_target_witness :
  observes_target (after (Tour.next Example.layout) Example.started) /\
  observes_target (after (Tour.start Example.layout) Example.world0).
Proof.
  split.
  - apply (proj1 (observer_follows_target Example.layout Example.started)).
    intros x Hx. vm_compute in Hx. apply list_elem_of_singleton in Hx. subst. reflexivity.
  - apply (proj2 (observer_follows_target Example.layout Example.world0)). reflexivity.
Defined.

(** ** What a finished tour leaves behind *)

Lemma endTour_keeps_options (L : Layout) (w : Tour.World) :
  Tour.options (Tour.this (after (Tour.endTour L) w)) = Tour.options (Tour.this w).
Proof.
  destruct w as [o pg]. unfold after, Tour.endTour, bind, gets, modify. cbn.
  destruct (Tour.popupElement o) as [p|]; cbn; [|reflexivity].
  destruct (Options.spotlight (Tour.options o)); cbn; [|reflexivity].
  unfold Tour.withSpotlight. cbn.
  destruct (Tour.spotlight o); cbn; reflexivity.
Qed.

Lemma endTour_kills_spotlight (L : Layout) (w : Tour.World) (sp : Spotlight.t) :
  is_Some (Tour.popupElement (Tour.this w)) ->
  Options.spotlight (Tour.options (Tour.this w)) = true ->
  Tour.spotlight (Tour.this w) = Some sp ->
  Tour.spotlight (Tour.this (after (Tour.endTour L) w)) = Some (Spotlight.kill sp).
Proof.
  intros [p Hp] Ho Hsp. destruct w as [o pg].
  unfold after, Tour.endTour, Tour.withSpotlight, bind, gets, modify. cbn in *.
  rewrite Hp. cbn. rewrite Ho. cbn. rewrite Hsp. reflexivity.
Qed.

Lemma next_keeps_options (L : Layout) (w : Tour.World) :
  Tour.options (Tour.this (after (Tour.next L) w)) = Tour.options (Tour.this w).
Proof.
  destruct (next_world_fields w) as (_ & _ & _ & _ & _ & Ho & _).
  unfold after. rewrite next_run. destruct (num_lt_length _ _).
  - destruct (preserves_makeStep L (next_world w)) as (_ & _ & _ & _ & Ho' & _).
    unfold after in Ho'. rewrite Ho'. exact Ho.
  - pose proof (endTour_keeps_options L (next_world w)) as Ho'.
    unfold after in Ho'. rewrite Ho'. exact Ho.
Qed.

Lemma start_keeps_options (L : Layout) (w : Tour.World) :
  Tour.options (Tour.this (after (Tour.start L) w)) = Tour.options (Tour.this w).
Proof.
  destruct (Z.eq_dec (Tour.currentState (Tour.this w)) 1%Z) as [E | E].
  - unfold after. rewrite start_warns by exact E. reflexivity.
  - unfold after. rewrite start_run by exact E.
    destruct (preserves_makeStep L (start_world L w)) as (_ & _ & _ & _ & Ho' & _).
    unfold after in Ho'. rewrite Ho'.
    destruct w as [[] ?]. unfold start_world. cbn.
    destruct (Options.spotlight options); reflexivity.
Qed.

(** After a tour of [N >= 1] steps was started and gone through with [N]
    calls of [next()], nothing of it is left: the popup is out of the
    document, the resize and scroll handlers are the empty ones, nothing
    is observed, and if the spotlight option is on every panel is out of
    the document and masks no point. *)
Theorem finished_tour_is_cleaned_up (L : Layout) (w0 : Tour.World) (N : nat) :
  Tour.currentState (Tour.this w0) = 0%Z ->
  Tour.step (Tour.this w0) = Int 0 ->
  length (Tour.steps (Tour.this w0)) = N ->
  (1 <= N)%nat ->
  Tour.observed (Tour.this w0) = [] ->
  let w := Tour.next_times L N (after (Tour.start L) w0) in
  (exists p, Tour.popupElement (Tour.this w) = Some p /\ popup_attached p = false) /\
  onresize (Tour.page w) = IgnoreResize /\
  onscroll (Tour.page w) = IgnoreScroll /\
  Tour.observed (Tour.this w) = [] /\
  (Options.spotlight (Tour.options (Tour.this w0)) = true ->
   exists sp,
     Tour.spotlight (Tour.this w) = Some sp /\
     all_removed sp /\
     forall q x y, q ∈ Spotlight.spotlight sp -> ~ covers q x y).
Proof.
  intros Hs H0 HN Hpos Hobs0 w.
  assert (Hne : Tour.currentState (Tour.this w0) ≠ 1%Z) by (rewrite Hs; discriminate).
  assert (Hobs' : forall k, observes_target (Tour.next_times L k (after (Tour.start L) w0))).
  { induction k as [|k IH]; cbn [Tour.next_times].
    - apply start_observes, Hobs0.
    - apply next_observes, IH. }
  destruct N as [|n]; [lia|].
  set (v := Tour.next_times L n (after (Tour.start L) w0)).
  assert (Hrun : running (Tour.steps (Tour.this w0)) (Z.of_nat n) v).
  { apply next_times_running; [exact Hne | exact H0 | lia]. }
  pose proof (Hobs' n) as Hobs. fold v in Hobs.
  assert (Hopt : forall k, Tour.options (Tour.this (Tour.next_times L k (after (Tour.start L) w0)))
                           = Tour.options (Tour.this w0)).
  { induction k as [|k IH]; cbn [Tour.next_times].
    - apply start_keeps_options.
    - rewrite next_keeps_options. exact IH. }
  assert (Hw : w = after (Tour.endTour L) (next_world v)).
  { subst w. cbn [Tour.next_times]. fold v. unfold after. rewrite next_run.
    destruct Hrun as (_ & Hk & Hss & _). rewrite Hk, Hss, HN. cbn.
    destruct (Z.ltb_spec (Z.of_nat n + 1) (Z.of_nat (S n))); [lia | reflexivity]. }
  pose proof (next_world_running _ _ _ Hrun) as (_ & _ & _ & Hp & Hsp).
  destruct (endTour_run L (next_world v)) as (_ & _ & Hclean).
  destruct Hclean as (_ & Hpop & Hres & Hscr).
  { exact Hp. }
  { intros Ho. destruct (Hsp Ho) as (sp & -> & _). eauto. }
  rewrite Hw. split; [exact Hpop|]. split; [exact Hres|]. split; [exact Hscr|].
  split.
  - apply (nothing_observed_same_target (next_world v)).
    + apply next_world_nothing_observed, Hobs.
    + apply same_target_endTour.
  - intros Ho.
    destruct (next_world_fields v) as (_ & _ & _ & _ & _ & Ho' & _).
    assert (Hon : Options.spotlight (Tour.options (Tour.this (next_world v))) = true).
    { rewrite Ho'. subst v. rewrite Hopt. exact Ho. }
    destruct (Hsp Hon) as (sp & Hsome & _).
    exists (Spotlight.kill sp).
    split; [apply endTour_kills_spotlight; [exact Hp | exact Hon | exact Hsome]|].
    split; [apply kill_all_removed|].
    intros q x y Hq [Ha _].
    pose proof (kill_all_removed sp) as Hall. unfold all_removed in Hall.
    rewrite Forall_forall in Hall. rewrite (Hall q Hq) in Ha. discriminate.
Qed.

Lemma finished_tour_is_cleaned_up_witness :
  onresize (Tour.page (Tour.next_times Example.layout 2 Example.started)) = IgnoreResize /\
  Tour.observed (Tour.this (Tour.next_times Example.layout 2 Example.started)) = [].
Proof.
  destruct (finished_tour_is_cleaned_up Example.layout Example.world0 2
              eq_refl eq_refl eq_refl ltac:(lia) eq_refl)
    as (_ & Hres & _ & Hobs & _).
  split; [exact Hres | exact Hobs].
Defined.

(** ** A render on a target *)


